(** * Route registry of gorouter: a shallow embedding and its properties

    The embedded program is [registry.RouteRegistry] (package [registry]):
    the table from route uris to endpoint pools, its lookup with wildcard
    fallback, its pruning sweep and the ticker that drives the sweep.

    Package [route] ([Uri], [Endpoint], [Pool]) is imported by the registry
    but its source is not part of the excerpt; its operations are modelled
    from the specification and marked as such. *)

From Stdlib Require Import ZArith Lia String Ascii Bool.
From stdpp Require Import base gmap sets list strings fin_maps.

Local Open Scope Z_scope.
Local Open Scope string_scope.

(** ** Time *)

(** [time.Time] instants and [time.Duration] spans, both counted in
    nanoseconds.  The zero [Time] is [0]. *)
Definition Time := Z.
Definition Duration := Z.

(** ** Package route: uris *)

Module route.

(** [type Uri string] *)
Definition Uri := string.

Definition is_upper (c : ascii) : bool :=
  let n := nat_of_ascii c in (65 <=? n)%nat && (n <=? 90)%nat.

Definition lower_ascii (c : ascii) : ascii :=
  if is_upper c then ascii_of_nat (nat_of_ascii c + 32) else c.

(** Modelled from the spec: [Uri.ToLower] is missing from the excerpt.
    "Normalize(raw) -> Uri lowercases and returns a canonical key" (4.1);
    the letters [A]..[Z] are mapped to [a]..[z], every other byte is kept. *)
Fixpoint ToLower (u : Uri) : Uri :=
  match u with
  | EmptyString => EmptyString
  | String c s => String (lower_ascii c) (ToLower s)
  end.

(** Two bytes that are the same letter up to case. *)
Definition same_letter (c1 c2 : ascii) : bool :=
  bool_decide (c1 = c2)
  || (is_upper c1 && bool_decide (c2 = lower_ascii c1))
  || (is_upper c2 && bool_decide (c1 = lower_ascii c2)).

(** Two uris that differ only by case: same length, and byte by byte the
    same letter. *)
Fixpoint differ_only_by_case (u1 u2 : Uri) : bool :=
  match u1, u2 with
  | EmptyString, EmptyString => true
  | String c1 s1, String c2 s2 => same_letter c1 c2 && differ_only_by_case s1 s2
  | _, _ => false
  end.

(** The host part of a uri ends at the first slash; the rest is its path. *)
Fixpoint split_path (u : string) : string * string :=
  match u with
  | EmptyString => (EmptyString, EmptyString)
  | String c s =>
      if bool_decide (c = "/"%char) then (EmptyString, u)
      else let '(h, p) := split_path s in (String c h, p)
  end.

(** A leading wildcard label ["*."] is dropped before generalizing. *)
Definition trim_wildcard (h : string) : string :=
  match h with
  | String "*" (String "." r) => r
  | _ => h
  end.

(** The suffix of [h] that starts at its first dot, if it has one. *)
Fixpoint from_dot (h : string) : option string :=
  match h with
  | EmptyString => None
  | String c s => if bool_decide (c = "."%char) then Some h else from_dot s
  end.

(** Modelled from the spec: [Uri.NextWildcard] is missing from the excerpt.
    "produces the next, strictly more general, wildcard form of the URI by
    replacing the left-most host label with a wildcard marker; it reports
    failure once no further generalization is possible (the pattern is
    already a single wildcard label, or has no further labels to
    generalize) ... a URI with a path suffix preserves the path suffix
    unchanged while only the host portion is generalized" (4.1).
    The boolean is [err != nil].  The spec does not say which uri comes with
    the failure; the receiver is returned unchanged. *)
Definition NextWildcard (u : Uri) : Uri * bool :=
  let '(h, p) := split_path u in
  match from_dot (trim_wildcard h) with
  | None => (u, true)
  | Some r => (String "*" r +:+ p, false)
  end.

(** Number of dots of a host. *)
Fixpoint dots (h : string) : nat :=
  match h with
  | EmptyString => 0
  | String c s => (if bool_decide (c = "."%char) then 1 else 0) + dots s
  end.

(** Number of host labels that can still be generalized: the labels of the
    host once a leading wildcard label is dropped. *)
Definition labels (u : Uri) : nat :=
  S (dots (trim_wildcard (split_path u).1)).

(** ** Package route: endpoints and pools *)

(** Modelled from the spec: [route.Endpoint] is missing from the excerpt.
    "a backend instance descriptor (address, metadata ...)", whose identity
    is its canonical address (3, 4.2). *)
Record Endpoint := mkEndpoint {
  address : string;
  metadata : list (string * string)
}.

Definition CanonicalAddr (e : Endpoint) : string := address e.

(** Modelled from the spec: [route.Pool] is missing from the excerpt.
    "an unordered collection of Endpoints keyed by canonical address, plus a
    per-pool freshness parameter supplied at creation" (3); every endpoint
    carries the last-seen timestamp the pool gave it. *)
Record Pool := mkPool {
  freshness : Duration;
  endpoints : gmap string (Endpoint * Time)
}.

Definition NewPool (d : Duration) : Pool :=
  {| freshness := d; endpoints := ∅ |}.

(** "Put(endpoint): inserts or refreshes; updates the endpoint's last-seen
    timestamp to now" (4.3). *)
Definition Put (p : Pool) (e : Endpoint) (now : Time) : Pool :=
  {| freshness := freshness p;
     endpoints := <[CanonicalAddr e := (e, now)]> (endpoints p) |}.

(** "Remove(endpoint): deletes by canonical address; no-op if absent". *)
Definition Remove (p : Pool) (e : Endpoint) : Pool :=
  {| freshness := freshness p;
     endpoints := delete (CanonicalAddr e) (endpoints p) |}.

(** "IsEmpty() -> bool: true iff no endpoints remain". *)
Definition IsEmpty (p : Pool) : bool := bool_decide (endpoints p = ∅).

(** "Each(fn): applies fn to every endpoint": the endpoints [fn] is applied
    to, in the order of the iteration. *)
Definition Each (p : Pool) : list Endpoint :=
  (λ kv : string * (Endpoint * Time), kv.2.1) <$> map_to_list (endpoints p).

(** "PruneEndpoints(staleThreshold): removes every endpoint whose last-seen
    timestamp is older than now - staleThreshold". *)
Definition PruneEndpoints (p : Pool) (staleThreshold : Duration) (now : Time) : Pool :=
  {| freshness := freshness p;
     endpoints := filter (λ kv : string * (Endpoint * Time),
                            (now - staleThreshold ≤ kv.2.2)%Z) (endpoints p) |}.

End route.

Import route.

(** ** Package registry *)

Module registry.

(** Address of a [*route.Pool] object. *)
Definition loc := positive.

(** A [time.Ticker] of the Go runtime: whether it still runs, and whether a
    tick sits undelivered in its channel [C] (a channel of capacity one). *)
Record Ticker := mkTicker {
  running : bool;
  pending : bool
}.

(** Where a goroutine launched by [StartPruningCycle] stands in its loop
    [for { select { case <-r.ticker.C: Debug(..); r.pruneStaleDroplets() } }]. *)
Inductive Sweeper :=
  | AtSelect            (* about to evaluate [r.ticker.C] *)
  | Blocked (i : nat)   (* receiving from the channel of ticker [i] *)
  | Woken.              (* got a tick; the sweep is next *)

(** [config.Config], the two fields the registry reads. *)
Record Config := mkConfig {
  PruneStaleDropletsInterval : Duration;
  DropletStaleThreshold : Duration
}.

(** [type RouteRegistry struct] with the objects its pointers refer to:
    [byUri] maps a uri to the address of its pool and [pools] holds the pool
    objects; [ticker] is the index in [tickers] of the ticker the field
    points to ([None] is [nil]); [sweepers] are the goroutines started so
    far and [debugLines] counts the lines they logged, one per sweep they
    ran.  The logger and the message bus carry no state of their own here. *)
Record RouteRegistry := mkRouteRegistry {
  byUri : gmap Uri loc;
  pruneStaleDropletsInterval : Duration;
  dropletStaleThreshold : Duration;
  ticker : option nat;
  timeOfLastUpdate : Time;
  pools : gmap loc Pool;
  tickers : list Ticker;
  sweepers : list Sweeper;
  debugLines : nat
}.

Definition set_byUri (f : gmap Uri loc → gmap Uri loc) (r : RouteRegistry) :=
  mkRouteRegistry (f (byUri r)) (pruneStaleDropletsInterval r)
    (dropletStaleThreshold r) (ticker r) (timeOfLastUpdate r) (pools r)
    (tickers r) (sweepers r) (debugLines r).

Definition set_pools (f : gmap loc Pool → gmap loc Pool) (r : RouteRegistry) :=
  mkRouteRegistry (byUri r) (pruneStaleDropletsInterval r)
    (dropletStaleThreshold r) (ticker r) (timeOfLastUpdate r) (f (pools r))
    (tickers r) (sweepers r) (debugLines r).

Definition set_ticker (t : option nat) (r : RouteRegistry) :=
  mkRouteRegistry (byUri r) (pruneStaleDropletsInterval r)
    (dropletStaleThreshold r) t (timeOfLastUpdate r) (pools r)
    (tickers r) (sweepers r) (debugLines r).

Definition set_timeOfLastUpdate (t : Time) (r : RouteRegistry) :=
  mkRouteRegistry (byUri r) (pruneStaleDropletsInterval r)
    (dropletStaleThreshold r) (ticker r) t (pools r)
    (tickers r) (sweepers r) (debugLines r).

Definition set_tickers (f : list Ticker → list Ticker) (r : RouteRegistry) :=
  mkRouteRegistry (byUri r) (pruneStaleDropletsInterval r)
    (dropletStaleThreshold r) (ticker r) (timeOfLastUpdate r) (pools r)
    (f (tickers r)) (sweepers r) (debugLines r).

Definition set_sweepers (f : list Sweeper → list Sweeper) (r : RouteRegistry) :=
  mkRouteRegistry (byUri r) (pruneStaleDropletsInterval r)
    (dropletStaleThreshold r) (ticker r) (timeOfLastUpdate r) (pools r)
    (tickers r) (f (sweepers r)) (debugLines r).

Definition set_debugLines (f : nat → nat) (r : RouteRegistry) :=
  mkRouteRegistry (byUri r) (pruneStaleDropletsInterval r)
    (dropletStaleThreshold r) (ticker r) (timeOfLastUpdate r) (pools r)
    (tickers r) (sweepers r) (f (debugLines r)).

(** [func NewRouteRegistry(c, mbus)]: an empty table, a nil ticker and the
    zero time. *)
Definition NewRouteRegistry (c : Config) : RouteRegistry :=
  {| byUri := ∅;
     pruneStaleDropletsInterval := PruneStaleDropletsInterval c;
     dropletStaleThreshold := DropletStaleThreshold c;
     ticker := None;
     timeOfLastUpdate := 0;
     pools := ∅;
     tickers := [];
     sweepers := [];
     debugLines := 0 |}.

(** [pool.IsEmpty()] through the pointer [l]. *)
Definition IsEmptyAt (r : RouteRegistry) (l : loc) : bool :=
  from_option IsEmpty false (pools r !! l).

(** [pool.Each(f)] through the pointer [l]. *)
Definition EachAt (r : RouteRegistry) (l : loc) : list Endpoint :=
  from_option Each [] (pools r !! l).

(** [func (r *RouteRegistry) Register(uri, endpoint)].  [t] is the clock
    read on entry, before the lock is taken; [tPut] is the clock read by
    [pool.Put].  [Duration] is an integer type, so [/ 4] truncates. *)
Definition Register (r : RouteRegistry) (uri : Uri) (endpoint : Endpoint)
    (t tPut : Time) : RouteRegistry :=
  let uri := ToLower uri in
  let '(pool, r1) :=
    match byUri r !! uri with
    | Some pool => (pool, r)
    | None =>
        let pool := fresh (dom (pools r)) in
        (pool,
         set_byUri <[uri := pool]>
           (set_pools <[pool := NewPool (dropletStaleThreshold r `quot` 4)]> r))
    end in
  set_timeOfLastUpdate t
    (set_pools (alter (λ p, Put p endpoint tPut) pool) r1).

(** [func (r *RouteRegistry) Unregister(uri, endpoint)] *)
Definition Unregister (r : RouteRegistry) (uri : Uri) (endpoint : Endpoint)
    : RouteRegistry :=
  let uri := ToLower uri in
  match byUri r !! uri with
  | Some pool =>
      let r1 := set_pools (alter (λ p, Remove p endpoint) pool) r in
      if IsEmptyAt r1 pool then set_byUri (delete uri) r1 else r1
  | None => r
  end.

(** The loop of [Lookup], entered with [found = false] and [err = nil]:
    [for !found && err == nil { uri, err = uri.NextWildcard();
                                 pool, found = r.byUri[uri] }].
    [nw] is [NextWildcard]; the result is the final [pool] ([None] for nil,
    which is what a Go map yields for a missing key) together with the uris
    the body looked up, in order.  [None] as a whole means that [fuel]
    iterations were not enough. *)
Fixpoint Lookup_loop (nw : Uri → Uri * bool) (fuel : nat)
    (m : gmap Uri loc) (uri : Uri) : option (option loc * list Uri) :=
  match fuel with
  | O => None
  | S n =>
      let '(uri', err) := nw uri in
      match m !! uri' with
      | Some pool => Some (Some pool, [uri'])
      | None =>
          if err then Some (None, [uri'])
          else '(pool, tr) ← Lookup_loop nw n m uri'; Some (pool, uri' :: tr)
      end
  end.

(** [func (r *RouteRegistry) Lookup(uri)] over a given [NextWildcard]. *)
Definition LookupWith (nw : Uri → Uri * bool) (fuel : nat)
    (r : RouteRegistry) (uri : Uri) : option (option loc * list Uri) :=
  let uri := ToLower uri in
  match byUri r !! uri with
  | Some pool => Some (Some pool, [])
  | None => Lookup_loop nw fuel (byUri r) uri
  end.

(** [Lookup] with [route.NextWildcard]; one iteration per host label is
    enough. *)
Definition Lookup (r : RouteRegistry) (uri : Uri) : option loc :=
  match LookupWith NextWildcard (labels (ToLower uri)) r uri with
  | Some (pool, _) => pool
  | None => None
  end.

(** [func (r *RouteRegistry) StartPruningCycle()]: [time.NewTicker] makes a
    new running ticker, the field is pointed at it, and [go func() {...}()]
    starts one more goroutine. *)
Definition StartPruningCycle (r : RouteRegistry) : RouteRegistry :=
  if decide (0 < pruneStaleDropletsInterval r) then
    set_sweepers (λ gs, (gs ++ [AtSelect])%list)
      (set_ticker (Some (length (tickers r)))
         (set_tickers (λ ts, (ts ++ [mkTicker true false])%list) r))
  else r.

(** [Ticker.Stop]: "Stop turns off a ticker. After Stop, no more ticks will
    be sent.  Stop does not close the channel". *)
Definition Stop (tk : Ticker) : Ticker := mkTicker false (pending tk).

(** [func (r *RouteRegistry) StopPruningCycle()] *)
Definition StopPruningCycle (r : RouteRegistry) : RouteRegistry :=
  match ticker r with
  | Some i => set_tickers (alter Stop i) r
  | None => r
  end.

(** [func (registry *RouteRegistry) NumUris() int] *)
Definition NumUris (r : RouteRegistry) : nat := size (byUri r).

(** [func (r *RouteRegistry) TimeOfLastUpdate() time.Time] *)
Definition TimeOfLastUpdate (r : RouteRegistry) : Time := timeOfLastUpdate r.

(** The set [uris] built by [NumEndpoints]: [f] adds the canonical address
    of every endpoint of every pool of the table. *)
Definition collect_addrs (r : RouteRegistry) : gset string :=
  foldl (λ (uris : gset string) (kl : Uri * loc),
           foldl (λ (uris : gset string) e, {[CanonicalAddr e]} ∪ uris)
                 uris (EachAt r kl.2))
        ∅ (map_to_list (byUri r)).

(** [func (r *RouteRegistry) NumEndpoints() int] *)
Definition NumEndpoints (r : RouteRegistry) : nat := size (collect_addrs r).

(** The sum of the sizes of the pools of the table. *)
Definition sum_pool_sizes (r : RouteRegistry) : nat :=
  sum_list_with (λ kl : Uri * loc, length (EachAt r kl.2))
                (map_to_list (byUri r)).

(** One iteration of the loop of [pruneStaleDroplets], at entry [k, pool]. *)
Definition prune_route (now : Time) (r : RouteRegistry) (kl : Uri * loc)
    : RouteRegistry :=
  let r1 :=
    set_pools (alter (λ p, PruneEndpoints p (dropletStaleThreshold r) now)
                     kl.2) r in
  if IsEmptyAt r1 kl.2 then set_byUri (delete kl.1) r1 else r1.

(** [func (r *RouteRegistry) pruneStaleDroplets()]: the loop visits the
    entries the table has on entry; deleting the entry being visited is
    allowed in Go.  [now] is the clock read by [PruneEndpoints]. *)
Definition pruneStaleDroplets (r : RouteRegistry) (now : Time) : RouteRegistry :=
  foldl (prune_route now) r (map_to_list (byUri r)).

(** *** The registry as a transition system *)

(** The runtime sends a tick on ticker [i]: only a running ticker ticks, and
    the tick is kept in the channel until a goroutine receives it. *)
Definition fire (i : nat) (r : RouteRegistry) : RouteRegistry :=
  match tickers r !! i with
  | Some tk =>
      if running tk then set_tickers <[i := mkTicker true true]> r else r
  | None => r
  end.

(** Goroutine [g] evaluates [r.ticker.C] and blocks on that channel. *)
Definition select_ticker (g : nat) (r : RouteRegistry) : RouteRegistry :=
  match sweepers r !! g, ticker r with
  | Some AtSelect, Some i => set_sweepers <[g := Blocked i]> r
  | _, _ => r
  end.

(** Goroutine [g] receives the tick waiting in the channel it blocks on. *)
Definition receive (g : nat) (r : RouteRegistry) : RouteRegistry :=
  match sweepers r !! g with
  | Some (Blocked i) =>
      match tickers r !! i with
      | Some tk =>
          if pending tk then
            set_sweepers <[g := Woken]>
              (set_tickers <[i := mkTicker (running tk) false]> r)
          else r
      | None => r
      end
  | _ => r
  end.

(** Goroutine [g], having received a tick, logs its line, runs
    [pruneStaleDroplets] and goes back to the head of its loop. *)
Definition sweep (g : nat) (now : Time) (r : RouteRegistry) : RouteRegistry :=
  match sweepers r !! g with
  | Some Woken =>
      set_sweepers <[g := AtSelect]>
        (pruneStaleDroplets (set_debugLines S r) now)
  | _ => r
  end.

(** The calls of the interface, the direct call of the sweep, and the moves
    of the runtime and of the sweeper goroutines.  Every call runs under the
    lock of the registry, so calls do not overlap. *)
Inductive Event :=
  | EvRegister (uri : Uri) (endpoint : Endpoint) (t tPut : Time)
  | EvUnregister (uri : Uri) (endpoint : Endpoint)
  | EvLookup (uri : Uri)
  | EvStartPruningCycle
  | EvStopPruningCycle
  | EvPrune (now : Time)
  | EvFire (i : nat)
  | EvSelect (g : nat)
  | EvReceive (g : nat)
  | EvSweep (g : nat) (now : Time).

(** An event that is not enabled (a goroutine that is not at that point of
    its loop) leaves the state as it is. *)
Definition exec (ev : Event) (r : RouteRegistry) : RouteRegistry :=
  match ev with
  | EvRegister uri e t tPut => Register r uri e t tPut
  | EvUnregister uri e => Unregister r uri e
  | EvLookup _ => r
  | EvStartPruningCycle => StartPruningCycle r
  | EvStopPruningCycle => StopPruningCycle r
  | EvPrune now => pruneStaleDroplets r now
  | EvFire i => fire i r
  | EvSelect g => select_ticker g r
  | EvReceive g => receive g r
  | EvSweep g now => sweep g now r
  end.

Fixpoint run (evs : list Event) (r : RouteRegistry) : RouteRegistry :=
  match evs with
  | [] => r
  | ev :: evs' => run evs' (exec ev r)
  end.

(** [func (r *RouteRegistry) pauseStaleTracker()]: every pool of the table
    is marked with one and the same clock reading [t].  [Pool.MarkUpdated]
    is missing from the excerpt and is taken as the parameter
    [MarkUpdated]. *)
Definition pauseStaleTracker (MarkUpdated : Pool → Time → Pool)
    (r : RouteRegistry) (t : Time) : RouteRegistry :=
  foldl (λ (r : RouteRegistry) (kl : Uri * loc),
           set_pools (alter (λ p, MarkUpdated p t) kl.2) r)
        r (map_to_list (byUri r)).

(** Number of tickers that are running. *)
Definition active_tickers (r : RouteRegistry) : nat :=
  length (filter (λ tk, running tk = true) (tickers r)).

End registry.

Import registry.

(** ** Package test_util *)

Module test_util.

(** [time.Millisecond], in nanoseconds. *)
Definition Millisecond : Duration := 1000000.

(** [config.StatusConfig], [config.NatsConfig], [config.LoggingConfig] and
    [config.OAuthConfig], with the fields [SpecConfig] gives them. *)
Record StatusConfig := mkStatusConfig {
  StatusPort : Z;
  StatusUser : string;
  StatusPass : string
}.

Record NatsConfig := mkNatsConfig {
  NatsHost : string;
  NatsPort : Z;
  NatsUser : string;
  NatsPass : string
}.

Record LoggingConfig := mkLoggingConfig {
  File : string;
  Level : string;
  MetronAddress : string;
  JobName : string
}.

Record OAuthConfig := mkOAuthConfig {
  TokenEndpoint : string;
  OAuthPort : Z
}.

(** [config.Config], with the fields [SpecConfig] assigns.  The type is
    declared in package [config], which is not part of the excerpt; what
    [config.DefaultConfig] puts in other fields is not known and is left
    out.  Ports are [uint16] values. *)
Record Config := mkConfig {
  Port : Z;
  Index : Z;
  TraceKey : string;
  Ip : string;
  StartResponseDelayInterval : Duration;
  PublishStartMessageIntervalInSeconds : Z;
  PruneStaleDropletsInterval : Duration;
  DropletStaleThreshold : Duration;
  PublishActiveAppsInterval : Duration;
  Zone : string;
  EndpointTimeout : Duration;
  Status : StatusConfig;
  Nats : list NatsConfig;
  Logging : LoggingConfig;
  OAuth : OAuthConfig
}.

(** [func SpecConfig(natsPort, statusPort, proxyPort uint16) *config.Config] *)
Definition SpecConfig (natsPort statusPort proxyPort : Z) : Config :=
  {| Port := proxyPort;
     Index := 2;
     TraceKey := "my_trace_key";
     Ip := "127.0.0.1";
     StartResponseDelayInterval := 10 * Millisecond;
     PublishStartMessageIntervalInSeconds := 10;
     PruneStaleDropletsInterval := 0;
     DropletStaleThreshold := 0;
     PublishActiveAppsInterval := 0;
     Zone := "z1";
     EndpointTimeout := 500 * Millisecond;
     Status := {| StatusPort := statusPort;
                  StatusUser := "user"; StatusPass := "pass" |};
     Nats := [ {| NatsHost := "localhost"; NatsPort := natsPort;
                  NatsUser := "nats"; NatsPass := "nats" |} ];
     Logging := {| File := "/dev/stdout"; Level := "info";
                   MetronAddress := "localhost:3457";
                   JobName := "router_test_z1_0" |};
     OAuth := {| TokenEndpoint := "http://localhost"; OAuthPort := 8080 |} |}.

(** The part of a configuration that [NewRouteRegistry] reads. *)
Definition registry_config (c : Config) : registry.Config :=
  registry.mkConfig (PruneStaleDropletsInterval c) (DropletStaleThreshold c).

End test_util.

(** ** Vocabulary of the statements *)

(** A host has no slash. *)
Fixpoint no_slash (h : string) : bool :=
  match h with
  | EmptyString => true
  | String c s => negb (bool_decide (c = "/"%char)) && no_slash s
  end.

(** A path suffix is empty or starts with a slash. *)
Definition is_path (p : string) : bool :=
  match p with
  | EmptyString => true
  | String c _ => bool_decide (c = "/"%char)
  end.

(** The [k]-th wildcard form derived from [u] by [nw]: [u] itself for
    [k = 0], and none once [nw] has reported exhaustion. *)
Fixpoint wildcard_form (nw : Uri → Uri * bool) (k : nat) (u : Uri) : option Uri :=
  match k with
  | O => Some u
  | S k' =>
      let '(u', err) := nw u in
      if err then None else wildcard_form nw k' u'
  end.

(** The state of a registry that is in use: every pool pointer of the
    table refers to a pool object, and no two uris share a pool. *)
Definition table_wf (r : RouteRegistry) : Prop :=
  (∀ k l, byUri r !! k = Some l → is_Some (pools r !! l))
  ∧ (∀ k1 k2 l, byUri r !! k1 = Some l → byUri r !! k2 = Some l → k1 = k2).

(** Every uri of the table has a pool that is not empty. *)
Definition no_empty_pool (r : RouteRegistry) : Prop :=
  ∀ k l, byUri r !! k = Some l →
    ∃ p, pools r !! l = Some p ∧ IsEmpty p = false.

(** The invariant of the loop of [pruneStaleDroplets] when the entries
    [rest] are still to be visited: they are entries of the table, and an
    entry of the table whose pool is empty is among them. *)
Definition prune_loop_inv (rest : list (Uri * loc)) (r : RouteRegistry) : Prop :=
  table_wf r
  ∧ NoDup rest.*1
  ∧ (∀ k l, (k, l) ∈ rest → byUri r !! k = Some l)
  ∧ (∀ k l, byUri r !! k = Some l →
       (∃ p, pools r !! l = Some p ∧ IsEmpty p = false) ∨ (k, l) ∈ rest).

(** Ticker [i] exists and has been stopped. *)
Definition ticker_stopped (i : nat) (r : RouteRegistry) : Prop :=
  (i < length (tickers r))%nat
  ∧ ∀ tk, tickers r !! i = Some tk → running tk = false.

(** The ticker field, when it is not nil, points to a ticker object. *)
Definition ticker_valid (r : RouteRegistry) : Prop :=
  ∀ i, ticker r = Some i → (i < length (tickers r))%nat.

(** [StartPruningCycle] is not among the events. *)
Definition never_started (evs : list Event) : Prop :=
  Forall (λ ev, ev ≠ EvStartPruningCycle) evs.

(** In a pool every endpoint is filed under its own canonical address. *)
Definition pool_keyed (p : Pool) : Prop :=
  ∀ a e t, endpoints p !! a = Some (e, t) → CanonicalAddr e = a.

Definition pools_keyed (r : RouteRegistry) : Prop :=
  ∀ l p, pools r !! l = Some p → pool_keyed p.

(** The pool has an endpoint that a sweep at [now] with threshold [th]
    keeps: one last seen at [now - th] or later. *)
Definition has_fresh_endpoint (p : Pool) (th : Duration) (now : Time) : Prop :=
  ∃ a e t, endpoints p !! a = Some (e, t) ∧ (now - th ≤ t)%Z.

(** The state [s] of the loop of [pruneStaleDroplets] started on [r0], when
    the entries [rest] are still to be visited: the entries visited so far
    have their pools pruned and are gone if the pool became empty. *)
Definition prune_progress (r0 : RouteRegistry) (now : Time)
    (rest : list (Uri * loc)) (s : RouteRegistry) : Prop :=
  dropletStaleThreshold s = dropletStaleThreshold r0
  ∧ (∀ k l, byUri s !! k = Some l
            ↔ byUri r0 !! k = Some l
              ∧ ((k, l) ∈ rest
                 ∨ ∃ p, pools r0 !! l = Some p
                        ∧ IsEmpty (PruneEndpoints p (dropletStaleThreshold r0)
                                     now) = false))
  ∧ (∀ k l, (k, l) ∈ rest → pools s !! l = pools r0 !! l)
  ∧ (∀ k l, byUri r0 !! k = Some l → (k, l) ∉ rest →
       pools s !! l
       = (λ p, PruneEndpoints p (dropletStaleThreshold r0) now)
           <$> pools r0 !! l)
  ∧ (∀ l, (∀ k, byUri r0 !! k ≠ Some l) → pools s !! l = pools r0 !! l).

(** [c] is the lowercased uri [v] or a wildcard form derived from it: one
    of the keys [Lookup] tries for [v]. *)
Definition candidate (v c : Uri) : Prop :=
  ∃ k, wildcard_form NextWildcard k (ToLower v) = Some c.

(** Number of calls of [StartPruningCycle] among [evs]. *)
Fixpoint starts (evs : list Event) : nat :=
  match evs with
  | [] => 0
  | EvStartPruningCycle :: evs' => S (starts evs')
  | _ :: evs' => starts evs'
  end.

(** The time of the last [Register] among [evs], [t0] if there is none. *)
Fixpoint last_register_time (evs : list Event) (t0 : Time) : Time :=
  match evs with
  | [] => t0
  | EvRegister _ _ t _ :: evs' => last_register_time evs' t
  | _ :: evs' => last_register_time evs' t0
  end.

(** ** Sample data *)

Module sample.

Definition cfg : Config := mkConfig 1 100.
Definition e1 : Endpoint := mkEndpoint "10.0.0.1:8080" [].
Definition e2 : Endpoint := mkEndpoint "10.0.0.2:8080" [].

(** A [NextWildcard] that returns the empty uri with its error. *)
Definition nw_empty (u : Uri) : Uri * bool :=
  let '(u', err) := NextWildcard u in
  if err then (EmptyString, true) else (u', false).

(** A registry with one endpoint under the empty uri. *)
Definition r_empty_key : RouteRegistry :=
  run [EvRegister "" e1 1 2] (NewRouteRegistry cfg).

(** A registry with a wildcard route and an exact route. *)
Definition r_routes : RouteRegistry :=
  run [EvRegister "*.example.com" e1 1 2; EvRegister "foo.example.com" e2 3 4]
      (NewRouteRegistry cfg).

(** One stale endpoint, a pruning cycle whose goroutine has received a
    tick, and then [StopPruningCycle]. *)
Definition r_stopped : RouteRegistry :=
  run [EvRegister "a.com" e1 1 2; EvStartPruningCycle; EvSelect 0;
       EvFire 0; EvReceive 0; EvStopPruningCycle]
      (NewRouteRegistry cfg).

(** Calls of the interface and a direct sweep. *)
Definition evs_mixed : list Event :=
  [EvRegister "a.com" e1 1 2; EvRegister "B.com" e2 60 61;
   EvUnregister "A.com" e1; EvRegister "c.com" e1 3 4; EvPrune 120].

(** A fresh registry, and the same with the pruning cycle started once and
    twice. *)
Definition r_fresh : RouteRegistry := NewRouteRegistry cfg.
Definition r_started : RouteRegistry := StartPruningCycle r_fresh.
Definition r_started_twice : RouteRegistry := StartPruningCycle r_started.

(** A pruning cycle whose ticker has sent a tick. *)
Definition evs_ticking : list Event :=
  [EvRegister "a.com" e1 1 2; EvStartPruningCycle; EvSelect 0; EvFire 0].

(** The same endpoint under two uris. *)
Definition r_same_addr : RouteRegistry :=
  run [EvRegister "foo.com" e1 1 2; EvRegister "bar.com" e1 3 4]
      (NewRouteRegistry cfg).

(** Two endpoints under one uri. *)
Definition evs_two_endpoints : list Event :=
  [EvRegister "c.com" e1 1 2; EvRegister "C.com" e2 50 51].

(** A configuration with the pruning cycle switched off. *)
Definition cfg_off : Config := mkConfig 0 100.

(** A [MarkUpdated] that sets the last-seen time of every endpoint. *)
Definition mark_all (p : Pool) (t : Time) : Pool :=
  {| freshness := freshness p;
     endpoints := (λ et : Endpoint * Time, (et.1, t)) <$> endpoints p |}.

End sample.

(** * Properties *)

(** ** Uris *)

(** The examples of the wildcard fallback: only the wildcard route matches
    hosts below it, at any depth; the exact route wins over it; another
    domain is not found; and a route whose only endpoint is unregistered is
    gone. *)
Example Lookup_examples :
  Lookup sample.r_routes "a.example.com" = Some 1%positive
  ∧ Lookup sample.r_routes "a.b.example.com" = Some 1%positive
  ∧ Lookup sample.r_routes "foo.example.com" = Some 2%positive
  ∧ Lookup sample.r_routes "a.other.com" = None
  ∧ NumUris (Unregister sample.r_routes "Foo.Example.Com" sample.e2) = 1%nat
  ∧ Lookup (Unregister sample.r_routes "*.example.com" sample.e1)
           "a.example.com" = None.
Proof. vm_compute. done. Qed.

Example NextWildcard_ex1 :
  NextWildcard "a.b.example.com" = ("*.b.example.com", false)
  ∧ NextWildcard "*.b.example.com" = ("*.example.com", false)
  ∧ NextWildcard "*.com" = ("*.com", true)
  ∧ NextWildcard "*" = ("*", true)
  ∧ NextWildcard "a.example.com/some/path.x" = ("*.example.com/some/path.x", false)
  ∧ ToLower "Foo.Com" = "foo.com".
Proof. repeat split; reflexivity. Qed.

Lemma lower_ascii_idem c : lower_ascii (lower_ascii c) = lower_ascii c.
Proof.
  destruct c as [[] [] [] [] [] [] [] []]; reflexivity.
Qed.

Lemma same_letter_lower c1 c2 :
  same_letter c1 c2 = true → lower_ascii c1 = lower_ascii c2.
Proof.
  unfold same_letter. rewrite !orb_true_iff, !andb_true_iff.
  intros [[H | [_ H]] | [_ H]]; apply bool_decide_eq_true in H; subst;
    auto using lower_ascii_idem.
Qed.

Lemma ToLower_differ_only_by_case u1 u2 :
  differ_only_by_case u1 u2 = true → ToLower u1 = ToLower u2.
Proof.
  revert u2. induction u1 as [| c1 s1 IH]; intros [| c2 s2]; simpl; try done.
  rewrite andb_true_iff. intros [Hc Hs].
  f_equal; [by apply same_letter_lower | by apply IH].
Qed.

Lemma ToLower_idem u : ToLower (ToLower u) = ToLower u.
Proof. induction u as [| c s IH]; simpl; [done |]. by rewrite lower_ascii_idem, IH. Qed.

Lemma split_path_spec u h p :
  split_path u = (h, p) →
  u = h +:+ p ∧ no_slash h = true ∧ is_path p = true.
Proof.
  revert h p. induction u as [| c s IH]; intros h p; simpl.
  - intros [= <- <-]. done.
  - case_bool_decide as Hc.
    + intros [= <- <-]. simpl. by rewrite bool_decide_eq_true_2.
    + destruct (split_path s) as [h' p'] eqn:Hs. intros [= <- <-].
      destruct (IH _ _ eq_refl) as (-> & Hh & Hp). simpl.
      by rewrite bool_decide_eq_false_2, Hh.
Qed.

Lemma split_path_app h p :
  no_slash h = true → is_path p = true → split_path (h +:+ p) = (h, p).
Proof.
  induction h as [| c s IH]; simpl; intros Hh Hp.
  - destruct p as [| c p]; simpl in *; [done |]. by rewrite Hp.
  - apply andb_true_iff in Hh as [Hc Hs]. apply negb_true_iff in Hc.
    rewrite Hc. by rewrite IH.
Qed.

Lemma trim_wildcard_cases h :
  trim_wildcard h = h ∨ h = String "*" (String "." (trim_wildcard h)).
Proof.
  destruct h as [| c s]; [by left |].
  destruct c as [[] [] [] [] [] [] [] []]; try (by left).
  destruct s as [| d r]; [by left |].
  destruct d as [[] [] [] [] [] [] [] []]; try (by left).
  by right.
Qed.

Lemma no_slash_trim_wildcard h :
  no_slash h = true → no_slash (trim_wildcard h) = true.
Proof.
  destruct (trim_wildcard_cases h) as [-> | Hh]; [done |].
  rewrite Hh at 1. simpl. done.
Qed.

Lemma from_dot_None h : from_dot h = None → dots h = 0%nat.
Proof.
  induction h as [| c s IH]; simpl; [done |].
  case_bool_decide; [done | auto].
Qed.

Lemma from_dot_Some h r :
  from_dot h = Some r →
  ∃ r', r = String "." r' ∧ dots h = S (dots r')
        ∧ (no_slash h = true → no_slash r' = true).
Proof.
  induction h as [| c s IH]; simpl; [done |].
  case_bool_decide as Hc.
  - intros [= <-]. subst c. exists s. simpl. done.
  - intros Hr. destruct (IH Hr) as (r' & -> & Hd & Hn).
    exists r'. split_and!; [done | done |].
    rewrite andb_true_iff. intros [_ Hs]. auto.
Qed.

(** A successful [NextWildcard] consumes exactly one host label, and
    exhaustion is reported exactly when a single label is left. *)
Lemma NextWildcard_labels u u' err :
  NextWildcard u = (u', err) →
  if err then u' = u ∧ labels u = 1%nat else labels u = S (labels u').
Proof.
  unfold NextWildcard, labels.
  destruct (split_path u) as [h p] eqn:Hu. simpl.
  destruct (split_path_spec _ _ _ Hu) as (-> & Hh & Hp).
  destruct (from_dot (trim_wildcard h)) as [r |] eqn:Hr.
  - intros [= <- <-].
    destruct (from_dot_Some _ _ Hr) as (r' & -> & Hd & Hn).
    specialize (Hn (no_slash_trim_wildcard _ Hh)).
    rewrite (split_path_app (String "*" (String "." r')) p); [| by simpl | done].
    simpl. by rewrite Hd.
  - intros [= <- <-]. split; [done |]. by rewrite (from_dot_None _ Hr).
Qed.

Lemma labels_pos u : (1 ≤ labels u)%nat.
Proof. unfold labels. lia. Qed.

(** ** The loop of Lookup, for any NextWildcard *)

Section LookupLoop.

Variable nw : Uri → Uri * bool.

Lemma Lookup_loop_fuel_mono m n n' u res :
  Lookup_loop nw n m u = Some res → (n ≤ n')%nat →
  Lookup_loop nw n' m u = Some res.
Proof.
  revert n' u res. induction n as [| n IH]; intros n' u res; simpl; [done |].
  intros Hres Hle. destruct n' as [| n']; [lia |]. simpl.
  destruct (nw u) as [u' err]. destruct (m !! u'); [done |].
  destruct err; [done |].
  destruct (Lookup_loop nw n m u') as [[pool tr] |] eqn:Hrec; [| done].
  rewrite (IH n' u' (pool, tr)); [done | done | lia].
Qed.

Lemma wildcard_form_S k u u' :
  nw u = (u', false) →
  wildcard_form nw (S k) u = wildcard_form nw k u'.
Proof. intros H. simpl. by rewrite H. Qed.

(** When the chain from [u] reaches [c] unmatched and [nw c] reports
    exhaustion with [x], the loop ends on the lookup of [x]. *)
Lemma Lookup_loop_exhaustion m k :
  ∀ fuel u c x,
    (∀ j c', (1 ≤ j ≤ k)%nat → wildcard_form nw j u = Some c' → m !! c' = None) →
    wildcard_form nw k u = Some c →
    nw c = (x, true) →
    (k < fuel)%nat →
    ∃ tr, Lookup_loop nw fuel m u = Some (m !! x, tr) ∧ last tr = Some x.
Proof.
  induction k as [| k IH]; intros fuel u c x Hnone Hk Hx Hfuel;
    (destruct fuel as [| fuel]; [lia |]); simpl in *.
  - injection Hk as ->. rewrite Hx.
    destruct (m !! x); eexists; (split; [reflexivity | done]).
  - destruct (nw u) as [u' err] eqn:Hu. destruct err; [done |].
    assert (m !! u' = None) as Hu'.
    { apply (Hnone 1%nat); [lia |]. simpl. by rewrite Hu. }
    rewrite Hu'.
    destruct (IH fuel u' c x) as (tr & Htr & Hlast); [| done | done | lia |].
    { intros j c' Hj Hc'. apply (Hnone (S j)); [lia |].
      simpl. by rewrite Hu. }
    rewrite Htr. simpl. eexists. split; [reflexivity |].
    rewrite last_cons, Hlast. done.
Qed.

(** When the chain from [u] first matches at its [k]-th form, [k ≥ 1], the
    loop returns that pool. *)
Lemma Lookup_loop_first_match m k :
  ∀ fuel u c l,
    (∀ j c', (1 ≤ j < S k)%nat → wildcard_form nw j u = Some c' → m !! c' = None) →
    wildcard_form nw (S k) u = Some c →
    m !! c = Some l →
    (k < fuel)%nat →
    ∃ tr, Lookup_loop nw fuel m u = Some (Some l, tr) ∧ last tr = Some c.
Proof.
  induction k as [| k IH]; intros fuel u c l Hnone Hk Hc Hfuel;
    (destruct fuel as [| fuel]; [lia |]); simpl in *;
    destruct (nw u) as [u' err] eqn:Hu; (destruct err; [done |]).
  - injection Hk as ->. rewrite Hc. eexists. split; [reflexivity | done].
  - assert (m !! u' = None) as Hu'.
    { apply (Hnone 1%nat); [lia |]. simpl. by rewrite Hu. }
    rewrite Hu'.
    destruct (IH fuel u' c l) as (tr & Htr & Hlast); [| done | done | lia |].
    { intros j c' Hj Hc'. apply (Hnone (S j)); [lia |].
      simpl. by rewrite Hu. }
    rewrite Htr. simpl. eexists. split; [reflexivity |].
    rewrite last_cons, Hlast. done.
Qed.

(** C10. In [Lookup], the uri that [NextWildcard] returns together with its
    error is looked up before the loop exits: when the exact uri and the
    wildcard forms derived from it up to the [k]-th, [c], are not in the
    table and [NextWildcard c] reports exhaustion with the uri [x], the loop
    ends on the lookup of [x] and [Lookup] returns what the table holds for
    [x]; so a table with the key [x] makes [Lookup] return that pool and not
    a nil pool.  This holds for any [NextWildcard]. *)
Theorem Lookup_exhaustion_step_is_looked_up
    (r : RouteRegistry) (uri : Uri) (k fuel : nat) (c x : Uri) :
  (∀ j c', (j ≤ k)%nat →
     wildcard_form nw j (ToLower uri) = Some c' → byUri r !! c' = None) →
  wildcard_form nw k (ToLower uri) = Some c →
  nw c = (x, true) →
  (k < fuel)%nat →
  ∃ tr, LookupWith nw fuel r uri = Some (byUri r !! x, tr)
        ∧ last tr = Some x
        ∧ ∀ pool, byUri r !! x = Some pool →
            LookupWith nw fuel r uri = Some (Some pool, tr).
Proof.
  intros Hnone Hk Hx Hfuel. unfold LookupWith.
  rewrite (Hnone 0%nat (ToLower uri)); [| lia | done].
  destruct (Lookup_loop_exhaustion (byUri r) k fuel (ToLower uri) c x)
    as (tr & Htr & Hlast); [| done | done | done |].
  { intros j c' Hj. apply Hnone. lia. }
  exists tr. split_and!; [done | done |].
  intros pool Hpool. by rewrite Htr, Hpool.
Qed.

End LookupLoop.

Lemma Lookup_exhaustion_step_is_looked_up_witness :
  byUri sample.r_empty_key !! "" = Some 1%positive
  ∧ sample.nw_empty "*.com" = ("", true)
  ∧ ∃ tr, LookupWith sample.nw_empty 2 sample.r_empty_key "Host.com"
          = Some (Some 1%positive, tr)
          ∧ last tr = Some "".
Proof.
  split; [reflexivity |]. split; [reflexivity |].
  destruct (Lookup_exhaustion_step_is_looked_up
              sample.nw_empty sample.r_empty_key "Host.com" 1 2 "*.com" "")
    as (tr & _ & Hlast & Hpool).
  - intros j c' Hj. destruct j as [| [| j]]; [| | lia];
      vm_compute; intros [= <-]; reflexivity.
  - reflexivity.
  - reflexivity.
  - lia.
  - exists tr. split; [apply Hpool; reflexivity | exact Hlast].
Defined.

(** ** Lookup with route.NextWildcard *)

Lemma Lookup_loop_total m :
  ∀ n u, (labels u ≤ n)%nat →
    ∃ pool tr,
      Lookup_loop NextWildcard n m u = Some (pool, tr)
      ∧ (1 ≤ length tr ≤ labels u)%nat
      ∧ (∀ i w, (u :: tr) !! i = Some w → (i < length tr)%nat →
           (labels w + i = labels u)%nat)
      ∧ (pool = None →
           length tr = labels u
           ∧ ∃ w, (u :: tr) !! (length tr - 1)%nat = Some w
                  ∧ (NextWildcard w).2 = true).
Proof.
  induction n as [| n IH]; intros u Hn.
  { pose proof (labels_pos u). lia. }
  simpl. destruct (NextWildcard u) as [u' err] eqn:Hu.
  pose proof (NextWildcard_labels _ _ _ Hu) as Hl.
  assert (∀ i w, (u :: [u']) !! i = Some w → (i < 1)%nat →
            (labels w + i = labels u)%nat) as Hone.
  { intros [| i] w Hw Hi; [| lia]. simpl in Hw.
    assert (w = u) as -> by congruence. lia. }
  destruct (m !! u') as [l |] eqn:Hm.
  - exists (Some l), [u']. simpl.
    split_and!; [done | lia | pose proof (labels_pos u); lia | done | done].
  - destruct err.
    + destruct Hl as [-> Hl]. exists None, [u]. simpl.
      split_and!; [done | lia | lia | done |].
      intros _. split; [done |]. exists u. by rewrite Hu.
    + destruct (IH u') as (pool & tr & Htr & Hlen & Hchain & Hex); [lia |].
      rewrite Htr. simpl. exists pool, (u' :: tr). simpl.
      split_and!; [done | lia | lia | |].
      * intros [| i] w Hw Hi; simpl in Hw.
        -- assert (w = u) as -> by congruence. unfold labels in *. lia.
        -- specialize (Hchain i w Hw). unfold labels in *. lia.
      * intros Hpool. destruct (Hex Hpool) as (Hlen' & w & Hw & Hlast).
        split; [lia |]. exists w. split; [| done].
        replace (length tr - 0)%nat with (S (length tr - 1)) by lia.
        done.
Qed.

(** C8. The loop of [Lookup] ends for every uri: one iteration per host
    label of the lowercased uri is enough fuel and more fuel does not change
    the result; the [i]-th call of [NextWildcard] gets a uri with [i] labels
    less than the first, so no label is generalized twice; and when nothing
    matches, the loop runs exactly once per label and stops on the call on
    which [NextWildcard] reports exhaustion. *)
Theorem Lookup_terminates (r : RouteRegistry) (uri : Uri) :
  ∃ pool tr,
    (∀ fuel, (labels (ToLower uri) ≤ fuel)%nat →
       LookupWith NextWildcard fuel r uri = Some (pool, tr))
    ∧ Lookup r uri = pool
    ∧ (length tr ≤ labels (ToLower uri))%nat
    ∧ (∀ i w, (ToLower uri :: tr) !! i = Some w → (i < length tr)%nat →
         (labels w + i = labels (ToLower uri))%nat)
    ∧ (pool = None →
         length tr = labels (ToLower uri)
         ∧ ∃ w, (ToLower uri :: tr) !! (length tr - 1)%nat = Some w
                ∧ (NextWildcard w).2 = true).
Proof.
  unfold Lookup, LookupWith.
  destruct (byUri r !! ToLower uri) as [l |] eqn:Hexact.
  - exists (Some l), []. simpl. split_and!; [done | done | lia | | done].
    intros i w _ Hi. lia.
  - destruct (Lookup_loop_total (byUri r) (labels (ToLower uri)) (ToLower uri))
      as (pool & tr & Htr & Hlen & Hchain & Hex); [lia |].
    exists pool, tr. rewrite Htr.
    split_and!; [| done | lia | done | done].
    intros fuel Hfuel. by apply (Lookup_loop_fuel_mono _ _ _ _ _ _ Htr).
Qed.

Lemma Lookup_terminates_witness :
  ∃ pool tr,
    LookupWith NextWildcard 4 sample.r_routes "a.b.Other.com" = Some (pool, tr)
    ∧ Lookup sample.r_routes "a.b.Other.com" = pool
    ∧ pool = None
    ∧ length tr = 4%nat.
Proof.
  destruct (Lookup_terminates sample.r_routes "a.b.Other.com")
    as (pool & tr & Hfuel & Hres & _ & _ & Hex).
  exists pool, tr.
  assert (pool = None) as Hpool by (rewrite <- Hres; reflexivity).
  split_and!; [apply Hfuel; vm_compute; lia | done | done |].
  destruct (Hex Hpool) as [-> _]. reflexivity.
Defined.

Lemma NextWildcard_exhausted_same u x : NextWildcard u = (x, true) → x = u.
Proof. intros H. by destruct (NextWildcard_labels _ _ _ H). Qed.

Lemma wildcard_form_labels k :
  ∀ u c, wildcard_form NextWildcard k u = Some c →
         (labels c + k = labels u)%nat.
Proof.
  induction k as [| k IH]; intros u c Hc; simpl in Hc.
  - injection Hc as ->. lia.
  - destruct (NextWildcard u) as [u' err] eqn:Hu. destruct err; [done |].
    pose proof (NextWildcard_labels _ _ _ Hu) as Hl. simpl in Hl.
    specialize (IH _ _ Hc). lia.
Qed.

Lemma wildcard_form_step k :
  ∀ u c c', wildcard_form NextWildcard k u = Some c →
            wildcard_form NextWildcard (S k) u = Some c' →
            NextWildcard c = (c', false).
Proof.
  induction k as [| k IH]; intros u c c'.
  - simpl. intros [= ->]. destruct (NextWildcard c) as [u' err].
    destruct err; [done |]. by intros [= ->].
  - intros Hc Hc'. simpl in Hc. change (wildcard_form NextWildcard (S (S k)) u)
      with (let '(u', err) := NextWildcard u in
            if err then None else wildcard_form NextWildcard (S k) u') in Hc'.
    destruct (NextWildcard u) as [u' err]. destruct err; [done |].
    by apply (IH u').
Qed.

(** A pool returned by the loop is the pool of the first wildcard form that
    is in the table. *)
Lemma Lookup_loop_sound m :
  ∀ n u l tr,
    m !! u = None →
    Lookup_loop NextWildcard n m u = Some (Some l, tr) →
    ∃ k c, wildcard_form NextWildcard k u = Some c
           ∧ m !! c = Some l
           ∧ ∀ j c', (j < k)%nat →
               wildcard_form NextWildcard j u = Some c' → m !! c' = None.
Proof.
  induction n as [| n IH]; intros u l tr Hu; simpl; [done |].
  destruct (NextWildcard u) as [u' err] eqn:Hnw.
  destruct (m !! u') as [l' |] eqn:Hu'.
  - intros [= -> <-]. destruct err.
    { apply NextWildcard_exhausted_same in Hnw. congruence. }
    exists 1%nat, u'. simpl. rewrite Hnw. split_and!; [done | done |].
    intros j c' Hj. assert (j = 0%nat) as -> by lia. simpl. by intros [= <-].
  - destruct err; [done |].
    destruct (Lookup_loop NextWildcard n m u') as [[pool tr'] |] eqn:Hrec;
      [| done].
    simpl. intros [= -> <-].
    destruct (IH _ _ _ Hu' Hrec) as (k & c & Hk & Hc & Hfirst).
    exists (S k), c. simpl. rewrite Hnw. split_and!; [done | done |].
    intros [| j] c' Hj; simpl.
    + by intros [= <-].
    + rewrite Hnw. apply Hfirst. lia.
Qed.

Lemma Lookup_exact r uri pool :
  byUri r !! ToLower uri = Some pool → Lookup r uri = Some pool.
Proof. intros Hexact. unfold Lookup, LookupWith. by rewrite Hexact. Qed.

(** C2. [Lookup] lowercases the uri.  If the lowercased uri is a key of the
    table it returns that pool, whatever wildcard forms the table also
    holds.  Otherwise it walks the wildcard forms derived one after the
    other from the lowercased uri, each with one label less than the one
    before, and returns the pool of the first that is a key; a pool it
    returns is always that one.  When neither the lowercased uri nor any
    wildcard form derived from it is a key, it returns the nil pool. *)
Theorem Lookup_spec (r : RouteRegistry) (uri : Uri) :
  (∀ pool, byUri r !! ToLower uri = Some pool → Lookup r uri = Some pool)
  ∧ (∀ k c pool,
       wildcard_form NextWildcard k (ToLower uri) = Some c →
       byUri r !! c = Some pool →
       (∀ j c', (j < k)%nat →
          wildcard_form NextWildcard j (ToLower uri) = Some c' →
          byUri r !! c' = None) →
       Lookup r uri = Some pool)
  ∧ (∀ pool, Lookup r uri = Some pool →
       ∃ k c, wildcard_form NextWildcard k (ToLower uri) = Some c
              ∧ byUri r !! c = Some pool
              ∧ ∀ j c', (j < k)%nat →
                  wildcard_form NextWildcard j (ToLower uri) = Some c' →
                  byUri r !! c' = None)
  ∧ ((∀ k c, wildcard_form NextWildcard k (ToLower uri) = Some c →
             byUri r !! c = None) →
     Lookup r uri = None)
  ∧ (∀ k c c',
       wildcard_form NextWildcard k (ToLower uri) = Some c →
       wildcard_form NextWildcard (S k) (ToLower uri) = Some c' →
       labels c = S (labels c')).
Proof.
  split_and!.
  - apply Lookup_exact.
  - intros k c pool Hk Hc Hfirst. unfold Lookup, LookupWith.
    destruct k as [| k].
    { simpl in Hk. injection Hk as ->. by rewrite Hc. }
    rewrite (Hfirst 0%nat (ToLower uri)); [| lia | done].
    pose proof (wildcard_form_labels _ _ _ Hk) as Hl.
    destruct (Lookup_loop_first_match NextWildcard (byUri r) k
                (labels (ToLower uri)) (ToLower uri) c pool)
      as (tr & -> & _); [| done | done | lia | done].
    intros j c' Hj. apply Hfirst. lia.
  - intros pool. unfold Lookup, LookupWith.
    destruct (byUri r !! ToLower uri) as [l |] eqn:Hexact.
    + intros [= ->]. exists 0%nat, (ToLower uri).
      split_and!; [done | done | intros; lia].
    + destruct (Lookup_loop NextWildcard _ _ _) as [[pool' tr] |] eqn:Hloop;
        [| done].
      intros ->. by apply (Lookup_loop_sound _ _ _ _ _ Hexact Hloop).
  - intros Hnone. destruct (Lookup r uri) as [pool |] eqn:Hres; [| done].
    exfalso. unfold Lookup, LookupWith in Hres.
    rewrite (Hnone 0%nat (ToLower uri)) in Hres; [| done].
    destruct (Lookup_loop NextWildcard _ _ _) as [[pool' tr] |] eqn:Hloop;
      [| done].
    subst pool'.
    destruct (Lookup_loop_sound _ _ _ _ _ (Hnone 0%nat _ eq_refl) Hloop)
      as (k & c & Hk & Hc & _).
    rewrite (Hnone k c Hk) in Hc. done.
  - intros k c c' Hc Hc'.
    pose proof (wildcard_form_step _ _ _ _ Hc Hc') as Hstep.
    by apply NextWildcard_labels in Hstep.
Qed.

Lemma Lookup_spec_witness :
  Lookup sample.r_routes "FOO.Example.com" = Some 2%positive
  ∧ Lookup sample.r_routes "a.b.example.com" = Some 1%positive.
Proof.
  split.
  - apply (proj1 (Lookup_spec sample.r_routes "FOO.Example.com")).
    reflexivity.
  - apply (proj1 (proj2 (Lookup_spec sample.r_routes "a.b.example.com"))
             2%nat "*.example.com"); [reflexivity | reflexivity |].
    intros j c' Hj. destruct j as [| [| j]]; [| | lia];
      vm_compute; intros [= <-]; reflexivity.
Defined.

(** ** The table: every uri has a pool, and the pool is not empty *)

Lemma IsEmpty_Put p e t : IsEmpty (Put p e t) = false.
Proof. apply bool_decide_eq_false_2. simpl. apply insert_non_empty. Qed.

Lemma IsEmptyAt_false r l :
  IsEmptyAt r l = false → is_Some (pools r !! l) →
  ∃ p, pools r !! l = Some p ∧ IsEmpty p = false.
Proof. unfold IsEmptyAt. intros He [p Hp]. rewrite Hp in He. eauto. Qed.

Lemma NewRouteRegistry_inv c :
  table_wf (NewRouteRegistry c) ∧ no_empty_pool (NewRouteRegistry c).
Proof.
  unfold table_wf, no_empty_pool. simpl.
  split_and!; intros *; by rewrite lookup_empty.
Qed.

Lemma Register_inv r uri e t tPut :
  table_wf r → no_empty_pool r →
  table_wf (Register r uri e t tPut) ∧ no_empty_pool (Register r uri e t tPut).
Proof.
  intros [Hdom Hinj] Hne. unfold Register, table_wf, no_empty_pool.
  destruct (byUri r !! ToLower uri) as [l |] eqn:Hu; simpl.
  - split_and!.
    + intros k l' Hk. rewrite lookup_alter_is_Some. eauto.
    + done.
    + intros k l' Hk. destruct (decide (l = l')) as [<- | Hl].
      * destruct (Hdom _ _ Hk) as [p Hp]. exists (Put p e tPut).
        rewrite lookup_alter_eq, Hp. split; [done | apply IsEmpty_Put].
      * rewrite lookup_alter_ne by done. eauto.
  - set (l := fresh (dom (pools r))).
    assert (pools r !! l = None) as Hl by apply not_elem_of_dom, is_fresh.
    assert (∀ k l', byUri r !! k = Some l' → l ≠ l') as Hfresh.
    { intros k l' Hk <-. destruct (Hdom _ _ Hk) as [p Hp]. congruence. }
    split_and!.
    + intros k l' Hk. rewrite lookup_alter_is_Some.
      apply lookup_insert_Some in Hk as [[_ <-] | [_ Hk]].
      * rewrite lookup_insert_eq. eauto.
      * rewrite lookup_insert_ne by eauto. eauto.
    + intros k1 k2 l'. rewrite !lookup_insert_Some.
      intros [[<- <-] | [? H1]] [[<- ?] | [? H2]]; try done.
      * by destruct (Hfresh _ _ H2).
      * subst l'. by destruct (Hfresh _ _ H1).
      * eauto.
    + intros k l' Hk.
      apply lookup_insert_Some in Hk as [[_ <-] | [_ Hk]].
      * eexists. rewrite lookup_alter_eq, lookup_insert_eq. simpl.
        split; [done | apply IsEmpty_Put].
      * rewrite lookup_alter_ne, lookup_insert_ne by eauto. eauto.
Qed.

Lemma Unregister_inv r uri e :
  table_wf r → no_empty_pool r →
  table_wf (Unregister r uri e) ∧ no_empty_pool (Unregister r uri e).
Proof.
  intros [Hdom Hinj] Hne. unfold Unregister.
  destruct (byUri r !! ToLower uri) as [l |] eqn:Hu; [| done].
  set (r1 := set_pools (alter (λ p, Remove p e) l) r).
  assert (table_wf r1) as [Hdom1 Hinj1].
  { split; simpl; [| done].
    intros k l' Hk. rewrite lookup_alter_is_Some. eauto. }
  assert (∀ k l', k ≠ ToLower uri → byUri r !! k = Some l' →
            ∃ p, pools r1 !! l' = Some p ∧ IsEmpty p = false) as Hother.
  { intros k l' Hk Hl'. simpl. rewrite lookup_alter_ne; [by eauto |].
    intros ->. by destruct Hk; eauto. }
  destruct (IsEmptyAt r1 l) eqn:Hempty.
  - unfold table_wf, no_empty_pool. simpl. split_and!.
    + intros k l' [_ Hk]%lookup_delete_Some. by apply (Hdom1 k).
    + intros k1 k2 l' [_ H1]%lookup_delete_Some [_ H2]%lookup_delete_Some.
      eauto.
    + intros k l' [Hk Hl']%lookup_delete_Some. by apply (Hother k).
  - split; [done |]. intros k l' Hk. change (byUri r1) with (byUri r) in Hk.
    destruct (decide (k = ToLower uri)) as [-> | Hne'].
    + assert (l' = l) as -> by congruence.
      apply IsEmptyAt_false; [done |]. by apply (Hdom1 (ToLower uri)).
    + by apply (Hother k).
Qed.

Lemma prune_loop_inv_init r :
  table_wf r → prune_loop_inv (map_to_list (byUri r)) r.
Proof.
  intros Hwf. split_and!; [done | apply NoDup_fst_map_to_list | |].
  - intros k l. by rewrite elem_of_map_to_list.
  - intros k l Hk. right. by rewrite elem_of_map_to_list.
Qed.

Lemma prune_loop_inv_step now kl rest r :
  prune_loop_inv (kl :: rest) r → prune_loop_inv rest (prune_route now r kl).
Proof.
  destruct kl as [k0 l0]. intros ([Hdom Hinj] & Hnd & Hrest & Hcov).
  apply NoDup_cons in Hnd as [Hk0 Hnd]. simpl in Hk0.
  assert (byUri r !! k0 = Some l0) as Hkl0 by (apply Hrest; left).
  unfold prune_route. simpl fst. simpl snd.
  set (r1 := set_pools _ r).
  assert (table_wf r1) as [Hdom1 Hinj1].
  { split; simpl; [| done].
    intros k l Hk. rewrite lookup_alter_is_Some. eauto. }
  assert (∀ k l, k ≠ k0 → byUri r !! k = Some l →
            (∃ p, pools r1 !! l = Some p ∧ IsEmpty p = false)
            ∨ (k, l) ∈ rest) as Hother.
  { intros k l Hk Hl. destruct (Hcov _ _ Hl) as [Hp | Hin].
    - left. simpl. rewrite lookup_alter_ne; [done |].
      intros ->. by destruct Hk; eauto.
    - right. apply elem_of_cons in Hin as [[= -> ->] | Hin]; done. }
  assert (∀ k l, (k, l) ∈ rest → k ≠ k0) as Hrest_ne.
  { intros k l Hin ->. apply Hk0. apply list_elem_of_fmap.
    by exists (k0, l). }
  destruct (IsEmptyAt r1 l0) eqn:Hempty.
  - unfold prune_loop_inv, table_wf. simpl. split_and!.
    + intros k l [_ Hk]%lookup_delete_Some. by apply (Hdom1 k).
    + intros k1 k2 l [_ H1]%lookup_delete_Some [_ H2]%lookup_delete_Some.
      eauto.
    + done.
    + intros k l Hin. rewrite lookup_delete_ne by (symmetry; eauto).
      apply Hrest. by right.
    + intros k l [Hk Hl]%lookup_delete_Some. by apply Hother.
  - split_and!; [done | done | |].
    + intros k l Hin. apply Hrest. by right.
    + intros k l Hk. change (byUri r1) with (byUri r) in Hk.
      destruct (decide (k = k0)) as [-> | Hne].
      * assert (l = l0) as -> by congruence. left.
        apply IsEmptyAt_false; [done |]. by apply (Hdom1 k0).
      * by apply Hother.
Qed.

Lemma prune_loop_inv_foldl now rest :
  ∀ r, prune_loop_inv rest r → prune_loop_inv [] (foldl (prune_route now) r rest).
Proof.
  induction rest as [| kl rest IH]; intros r Hinv; simpl; [done |].
  apply IH. by apply prune_loop_inv_step.
Qed.

(** After a sweep no route is left with an empty pool, whatever the pools
    were before. *)
Lemma pruneStaleDroplets_inv r now :
  table_wf r →
  table_wf (pruneStaleDroplets r now) ∧ no_empty_pool (pruneStaleDroplets r now).
Proof.
  intros Hwf. unfold pruneStaleDroplets.
  destruct (prune_loop_inv_foldl now _ r (prune_loop_inv_init r Hwf))
    as (Hwf' & _ & _ & Hcov).
  split; [done |]. intros k l Hk.
  destruct (Hcov _ _ Hk) as [Hp | Hin]; [done |]. by apply elem_of_nil in Hin.
Qed.

Lemma inv_frame r r' :
  byUri r' = byUri r → pools r' = pools r →
  table_wf r ∧ no_empty_pool r → table_wf r' ∧ no_empty_pool r'.
Proof.
  unfold table_wf, no_empty_pool. intros -> ->. done.
Qed.

Lemma exec_inv ev r :
  table_wf r ∧ no_empty_pool r →
  table_wf (exec ev r) ∧ no_empty_pool (exec ev r).
Proof.
  intros Hinv. destruct ev; simpl.
  - destruct Hinv. by apply Register_inv.
  - destruct Hinv. by apply Unregister_inv.
  - done.
  - unfold StartPruningCycle. case_decide; [| done].
    by apply (inv_frame r).
  - unfold StopPruningCycle. destruct (ticker r); [| done].
    by apply (inv_frame r).
  - apply pruneStaleDroplets_inv, Hinv.
  - unfold fire. destruct (tickers r !! i) as [tk |]; [| done].
    destruct (running tk); [| done]. by apply (inv_frame r).
  - unfold select_ticker.
    destruct (sweepers r !! g) as [[] |]; try done.
    destruct (ticker r); [| done]. by apply (inv_frame r).
  - unfold receive.
    destruct (sweepers r !! g) as [[| i |] |]; try done.
    destruct (tickers r !! i) as [tk |]; [| done].
    destruct (pending tk); [| done]. by apply (inv_frame r).
  - unfold sweep.
    destruct (sweepers r !! g) as [[] |]; try done.
    apply (inv_frame (pruneStaleDroplets (set_debugLines S r) now)); [done.. |].
    apply pruneStaleDroplets_inv.
    by apply (inv_frame r (set_debugLines S r)).
Qed.

Lemma run_inv evs :
  ∀ r, table_wf r ∧ no_empty_pool r →
       table_wf (run evs r) ∧ no_empty_pool (run evs r).
Proof.
  induction evs as [| ev evs IH]; intros r Hinv; simpl; [done |].
  by apply IH, exec_inv.
Qed.

(** C1. Whatever calls of [Register], [Unregister] and [Lookup], starts and
    stops of the pruning cycle, sweeps (called directly or run by a sweeper
    goroutine) and moves of the tickers are made on a fresh registry, in
    any order, every uri that is a key of the table afterwards points to a
    pool object that is not empty. *)
Theorem no_empty_pool_under_any_key
    (c : Config) (evs : list Event) (k : Uri) (pool : loc) :
  byUri (run evs (NewRouteRegistry c)) !! k = Some pool →
  ∃ p, pools (run evs (NewRouteRegistry c)) !! pool = Some p
       ∧ IsEmpty p = false.
Proof.
  apply (run_inv evs (NewRouteRegistry c) (NewRouteRegistry_inv c)).
Qed.

Lemma no_empty_pool_under_any_key_witness :
  byUri (run sample.evs_mixed (NewRouteRegistry sample.cfg)) !! "b.com"
  = Some 2%positive
  ∧ ∃ p, pools (run sample.evs_mixed (NewRouteRegistry sample.cfg))
           !! 2%positive = Some p
         ∧ IsEmpty p = false.
Proof.
  split; [reflexivity |].
  apply (no_empty_pool_under_any_key sample.cfg sample.evs_mixed "b.com"
           2%positive).
  reflexivity.
Defined.

(** ** Register *)

Lemma elem_of_Each p a e t :
  endpoints p !! a = Some (e, t) → e ∈ Each p.
Proof.
  intros Ha. unfold Each. apply list_elem_of_fmap.
  exists (a, (e, t)). split; [done |]. by apply elem_of_map_to_list.
Qed.

Lemma Each_Put p e t : e ∈ Each (Put p e t).
Proof.
  apply (elem_of_Each _ (CanonicalAddr e) e t). simpl. apply lookup_insert_eq.
Qed.

Lemma Register_existing r uri e t tPut pool p :
  byUri r !! ToLower uri = Some pool → pools r !! pool = Some p →
  byUri (Register r uri e t tPut) !! ToLower uri = Some pool
  ∧ pools (Register r uri e t tPut) !! pool = Some (Put p e tPut).
Proof.
  intros Hu Hp. unfold Register. rewrite Hu. simpl.
  by rewrite lookup_alter_eq, Hp.
Qed.

Lemma Register_created r uri e t tPut :
  byUri r !! ToLower uri = None →
  pools r !! fresh (dom (pools r)) = None
  ∧ byUri (Register r uri e t tPut) !! ToLower uri = Some (fresh (dom (pools r)))
  ∧ pools (Register r uri e t tPut) !! fresh (dom (pools r))
    = Some (Put (NewPool (dropletStaleThreshold r `quot` 4)) e tPut).
Proof.
  intros Hu. unfold Register. rewrite Hu. simpl.
  rewrite lookup_insert_eq, lookup_alter_eq, lookup_insert_eq.
  split_and!; [apply not_elem_of_dom, is_fresh | done | done].
Qed.

(** C5. [Register] cannot fail: it is a total function of the registry, the
    uri, the endpoint and the two clock readings.  It works on the
    lowercased uri and leaves every other key as it was.  If the key has a
    pool, the endpoint is put into that pool; if not, a new pool object is
    made with the staleness threshold of the registry divided by four
    (integer division, so the threshold is within four units of four times
    the parameter), stored under the key, and the endpoint is put into it.
    Pools of other keys are not touched, and the time of the last update
    becomes the clock reading taken on entry. *)
Theorem Register_spec
    (r : RouteRegistry) (uri : Uri) (e : Endpoint) (t tPut : Time) :
  let r' := Register r uri e t tPut in
  TimeOfLastUpdate r' = t
  ∧ (∀ k, k ≠ ToLower uri → byUri r' !! k = byUri r !! k)
  ∧ (∀ pool p, byUri r !! ToLower uri = Some pool → pools r !! pool = Some p →
       byUri r' !! ToLower uri = Some pool
       ∧ pools r' !! pool = Some (Put p e tPut)
       ∧ e ∈ Each (Put p e tPut))
  ∧ (byUri r !! ToLower uri = None →
       ∃ pool p,
         pools r !! pool = None
         ∧ byUri r' !! ToLower uri = Some pool
         ∧ p = Put (NewPool (dropletStaleThreshold r `quot` 4)) e tPut
         ∧ pools r' !! pool = Some p
         ∧ e ∈ Each p
         ∧ freshness p = dropletStaleThreshold r `quot` 4
         ∧ Z.abs (dropletStaleThreshold r - 4 * freshness p) < 4)
  ∧ (∀ pool, byUri r' !! ToLower uri ≠ Some pool →
       pools r' !! pool = pools r !! pool)
  ∧ pruneStaleDropletsInterval r' = pruneStaleDropletsInterval r
  ∧ dropletStaleThreshold r' = dropletStaleThreshold r
  ∧ ticker r' = ticker r ∧ tickers r' = tickers r ∧ sweepers r' = sweepers r.
Proof.
  pose proof (λ p, Each_Put p e tPut) as Hin.
  unfold Register, TimeOfLastUpdate.
  destruct (byUri r !! ToLower uri) as [l |] eqn:Hu; simpl.
  - split_and!; try done.
    + intros pool p [= <-] Hp. rewrite lookup_alter_eq, Hp. done.
    + intros pool Hpool. rewrite lookup_alter_ne; [done | congruence].
  - set (l := fresh (dom (pools r))).
    assert (pools r !! l = None) as Hl by apply not_elem_of_dom, is_fresh.
    split_and!; try done.
    + intros k Hk. by rewrite lookup_insert_ne.
    + intros _. eexists l, _. rewrite lookup_insert_eq.
      rewrite lookup_alter_eq, lookup_insert_eq. simpl.
      split_and!; [done | done | reflexivity | done | apply Hin | done |].
      pose proof (Z.quot_rem' (dropletStaleThreshold r) 4) as Hq.
      assert (Z.abs (Z.rem (dropletStaleThreshold r) 4) < Z.abs 4) as Hr
        by (apply Z.rem_bound_abs; lia).
      simpl. lia.
    + intros pool Hpool. rewrite lookup_insert_eq in Hpool.
      rewrite lookup_alter_ne, lookup_insert_ne; [done | congruence..].
Qed.

Lemma Register_spec_witness :
  byUri sample.r_fresh !! ToLower "Foo.Com" = None
  ∧ ∃ pool p,
      pools sample.r_fresh !! pool = None
      ∧ byUri (Register sample.r_fresh "Foo.Com" sample.e1 5 6)
          !! ToLower "Foo.Com" = Some pool
      ∧ p = Put (NewPool (dropletStaleThreshold sample.r_fresh `quot` 4))
                sample.e1 6
      ∧ pools (Register sample.r_fresh "Foo.Com" sample.e1 5 6) !! pool
        = Some p
      ∧ sample.e1 ∈ Each p
      ∧ freshness p = dropletStaleThreshold sample.r_fresh `quot` 4
      ∧ Z.abs (dropletStaleThreshold sample.r_fresh - 4 * freshness p) < 4.
Proof.
  split; [reflexivity |].
  apply (Register_spec sample.r_fresh "Foo.Com" sample.e1 5 6). reflexivity.
Defined.

(** ** Case does not matter *)

Lemma Lookup_ToLower r u1 u2 :
  ToLower u1 = ToLower u2 → Lookup r u1 = Lookup r u2.
Proof. intros H. unfold Lookup, LookupWith. by rewrite H. Qed.

(** C7. On a registry in use, after [Register] of an endpoint under a uri,
    [Lookup] of any uri that differs from it only by case returns a pool
    that holds the endpoint; and two uris that differ only by case are the
    same key for [Register], [Unregister] and [Lookup]. *)
Theorem case_insensitive_round_trip
    (c : Config) (evs : list Event) (u1 u2 : Uri) (e : Endpoint)
    (t tPut : Time) :
  differ_only_by_case u1 u2 = true →
  let r := run evs (NewRouteRegistry c) in
  (∃ pool p, Lookup (Register r u1 e t tPut) u2 = Some pool
             ∧ pools (Register r u1 e t tPut) !! pool = Some p
             ∧ e ∈ Each p)
  ∧ Register r u1 e t tPut = Register r u2 e t tPut
  ∧ Unregister r u1 e = Unregister r u2 e
  ∧ (∀ u, Lookup r u1 = Lookup r u2
          ∧ Lookup (Register r u1 e t tPut) u = Lookup (Register r u2 e t tPut) u).
Proof.
  intros Hcase r. apply ToLower_differ_only_by_case in Hcase.
  assert (Register r u1 e t tPut = Register r u2 e t tPut) as Hreg
    by (unfold Register; by rewrite Hcase).
  split_and!; [| done | unfold Unregister; by rewrite Hcase |].
  - destruct (run_inv evs _ (NewRouteRegistry_inv c)) as [[Hdom _] _].
    fold r in Hdom.
    destruct (byUri r !! ToLower u1) as [l |] eqn:Hu.
    + destruct (Hdom _ _ Hu) as [p Hp].
      destruct (Register_existing r u1 e t tPut l p Hu Hp) as [Hl Hp'].
      exists l, (Put p e tPut). split_and!; [| done | apply Each_Put].
      apply Lookup_exact. by rewrite <- Hcase.
    + destruct (Register_created r u1 e t tPut Hu) as (_ & Hl & Hp).
      eexists _, _. split_and!; [| exact Hp | apply Each_Put].
      apply Lookup_exact. by rewrite <- Hcase.
  - intros u. split; [by apply Lookup_ToLower | by rewrite Hreg].
Qed.

Lemma case_insensitive_round_trip_witness :
  differ_only_by_case "Foo.Com" "foo.com" = true
  ∧ ∃ pool p,
      Lookup (Register (NewRouteRegistry sample.cfg) "Foo.Com" sample.e1 5 6)
             "foo.com" = Some pool
      ∧ pools (Register (NewRouteRegistry sample.cfg) "Foo.Com" sample.e1 5 6)
          !! pool = Some p
      ∧ sample.e1 ∈ Each p.
Proof.
  split; [reflexivity |].
  apply (case_insensitive_round_trip sample.cfg [] "Foo.Com" "foo.com"
           sample.e1 5 6).
  reflexivity.
Defined.

(** ** The time of the last update *)

Lemma prune_route_timeOfLastUpdate now r kl :
  timeOfLastUpdate (prune_route now r kl) = timeOfLastUpdate r.
Proof. unfold prune_route. by destruct (IsEmptyAt _ _). Qed.

Lemma pruneStaleDroplets_timeOfLastUpdate r now :
  timeOfLastUpdate (pruneStaleDroplets r now) = timeOfLastUpdate r.
Proof.
  unfold pruneStaleDroplets. generalize (map_to_list (byUri r)) as rest.
  intros rest. revert r. induction rest as [| kl rest IH]; intros r; simpl;
    [done |].
  by rewrite IH, prune_route_timeOfLastUpdate.
Qed.

Lemma Unregister_timeOfLastUpdate r uri e :
  timeOfLastUpdate (Unregister r uri e) = timeOfLastUpdate r.
Proof.
  unfold Unregister. destruct (byUri r !! ToLower uri); [| done].
  by destruct (IsEmptyAt _ _).
Qed.

Lemma Register_timeOfLastUpdate r uri e t tPut :
  timeOfLastUpdate (Register r uri e t tPut) = t.
Proof. unfold Register. by destruct (byUri r !! ToLower uri). Qed.

Lemma exec_timeOfLastUpdate ev r :
  timeOfLastUpdate (exec ev r) = last_register_time [ev] (timeOfLastUpdate r).
Proof.
  destruct ev; simpl.
  - apply Register_timeOfLastUpdate.
  - apply Unregister_timeOfLastUpdate.
  - done.
  - unfold StartPruningCycle. by case_decide.
  - unfold StopPruningCycle. by destruct (ticker r).
  - apply pruneStaleDroplets_timeOfLastUpdate.
  - unfold fire. destruct (tickers r !! i) as [tk |]; [| done].
    by destruct (running tk).
  - unfold select_ticker. destruct (sweepers r !! g) as [[] |]; try done.
    by destruct (ticker r).
  - unfold receive. destruct (sweepers r !! g) as [[| i |] |]; try done.
    destruct (tickers r !! i) as [tk |]; [| done]. by destruct (pending tk).
  - unfold sweep. destruct (sweepers r !! g) as [[] |]; try done.
    simpl. by rewrite pruneStaleDroplets_timeOfLastUpdate.
Qed.

(** C9. [TimeOfLastUpdate] returns the clock reading of the last [Register]
    that ran: [Register] sets it to the reading it took on entry, and
    [Unregister], [Lookup], the sweep (called directly or run by a sweeper
    goroutine) and every other event leave it as it was; so after any
    sequence of events it is the reading of the last [Register] of the
    sequence, or the value before the sequence if there is none. *)
Theorem TimeOfLastUpdate_last_Register (r : RouteRegistry) :
  (∀ uri e t tPut, TimeOfLastUpdate (Register r uri e t tPut) = t)
  ∧ (∀ uri e, TimeOfLastUpdate (Unregister r uri e) = TimeOfLastUpdate r)
  ∧ (∀ uri, TimeOfLastUpdate (exec (EvLookup uri) r) = TimeOfLastUpdate r)
  ∧ (∀ now, TimeOfLastUpdate (pruneStaleDroplets r now) = TimeOfLastUpdate r)
  ∧ (∀ g now, TimeOfLastUpdate (sweep g now r) = TimeOfLastUpdate r)
  ∧ (∀ evs, TimeOfLastUpdate (run evs r)
            = last_register_time evs (TimeOfLastUpdate r)).
Proof.
  unfold TimeOfLastUpdate. split_and!.
  - intros. apply Register_timeOfLastUpdate.
  - intros. apply Unregister_timeOfLastUpdate.
  - done.
  - intros. apply pruneStaleDroplets_timeOfLastUpdate.
  - intros g now. apply (exec_timeOfLastUpdate (EvSweep g now)).
  - intros evs. revert r. induction evs as [| ev evs IH]; intros r; simpl;
      [done |].
    rewrite IH, exec_timeOfLastUpdate. by destruct ev.
Qed.

(** ** Counting endpoints *)

Lemma collect_pool_spec (es : list Endpoint) :
  ∀ (acc : gset string) a,
    a ∈ foldl (λ (uris : gset string) e, {[CanonicalAddr e]} ∪ uris) acc es
    ↔ a ∈ acc ∨ ∃ e, e ∈ es ∧ CanonicalAddr e = a.
Proof.
  induction es as [| e es IH]; intros acc a; simpl.
  - split; [by left |]. intros [H | (e & H & _)]; [done |].
    by apply elem_of_nil in H.
  - rewrite IH, elem_of_union, elem_of_singleton. split.
    + intros [[-> | H] | (e' & He' & Ha)]; [| by left |].
      * right. exists e. split; [left | done].
      * right. exists e'. split; [by right | done].
    + intros [H | (e' & He' & Ha)]; [left; by right |].
      apply elem_of_cons in He' as [-> | He'].
      * left. by left.
      * right. by exists e'.
Qed.

Lemma collect_table_spec r (kls : list (Uri * loc)) :
  ∀ (acc : gset string) a,
    a ∈ foldl (λ (uris : gset string) (kl : Uri * loc),
                 foldl (λ (uris : gset string) e, {[CanonicalAddr e]} ∪ uris)
                       uris (EachAt r kl.2)) acc kls
    ↔ a ∈ acc ∨ ∃ k l e, (k, l) ∈ kls ∧ e ∈ EachAt r l ∧ CanonicalAddr e = a.
Proof.
  induction kls as [| [k l] kls IH]; intros acc a; simpl.
  - split; [by left |]. intros [H | (k & l & e & H & _)]; [done |].
    by apply elem_of_nil in H.
  - rewrite IH, collect_pool_spec. split.
    + intros [[H | (e & He & Ha)] | (k' & l' & e & Hin & He & Ha)].
      * by left.
      * right. exists k, l, e. split_and!; [left | done | done].
      * right. exists k', l', e. split_and!; [by right | done | done].
    + intros [H | (k' & l' & e & Hin & He & Ha)]; [left; by left |].
      apply elem_of_cons in Hin as [[= -> ->] | Hin].
      * left. right. by exists e.
      * right. by exists k', l', e.
Qed.

Lemma collect_addrs_spec r a :
  a ∈ collect_addrs r
  ↔ ∃ k l p e, byUri r !! k = Some l ∧ pools r !! l = Some p
               ∧ e ∈ Each p ∧ CanonicalAddr e = a.
Proof.
  unfold collect_addrs. rewrite collect_table_spec. split.
  - intros [H | (k & l & e & Hin & He & Ha)]; [by apply elem_of_empty in H |].
    apply elem_of_map_to_list in Hin. unfold EachAt in He.
    destruct (pools r !! l) as [p |] eqn:Hp; simpl in He.
    + by exists k, l, p, e.
    + by apply elem_of_nil in He.
  - intros (k & l & p & e & Hk & Hp & He & Ha). right.
    exists k, l, e. rewrite elem_of_map_to_list. unfold EachAt.
    by rewrite Hp.
Qed.

Lemma collect_pool_size (es : list Endpoint) :
  ∀ acc : gset string,
    (size (foldl (λ (uris : gset string) e, {[CanonicalAddr e]} ∪ uris) acc es)
     ≤ size acc + length es)%nat.
Proof.
  induction es as [| e es IH]; intros acc; simpl; [lia |].
  etrans; [apply IH |].
  rewrite size_union_alt, size_singleton.
  assert (size (acc ∖ {[CanonicalAddr e]}) ≤ size acc)%nat as Hsub.
  { apply subseteq_size. by intros x [Hx _]%elem_of_difference. }
  lia.
Qed.

Lemma collect_table_size r (kls : list (Uri * loc)) :
  ∀ acc : gset string,
    (size (foldl (λ (uris : gset string) (kl : Uri * loc),
                    foldl (λ (uris : gset string) e, {[CanonicalAddr e]} ∪ uris)
                          uris (EachAt r kl.2)) acc kls)
     ≤ size acc + sum_list_with (λ kl : Uri * loc, length (EachAt r kl.2)) kls)%nat.
Proof.
  induction kls as [| kl kls IH]; intros acc; simpl; [lia |].
  etrans; [apply IH |].
  pose proof (collect_pool_size (EachAt r kl.2) acc). lia.
Qed.

Lemma Register_new r uri e t tPut :
  byUri r !! ToLower uri = None →
  Register r uri e t tPut
  = set_timeOfLastUpdate t
      (set_pools (alter (λ p, Put p e tPut) (fresh (dom (pools r))))
         (set_byUri <[ToLower uri := fresh (dom (pools r))]>
            (set_pools <[fresh (dom (pools r))
                         := NewPool (dropletStaleThreshold r `quot` 4)]> r))).
Proof. intros H. unfold Register. by rewrite H. Qed.

Lemma Each_Put_NewPool d e t : Each (Put (NewPool d) e t) = [e].
Proof.
  unfold Each. simpl. rewrite insert_empty, map_to_list_singleton. done.
Qed.

(** The registry after two [Register] calls under different keys on a fresh
    registry. *)
Lemma two_routes c u1 u2 e1 e2 t1 tPut1 t2 tPut2 :
  ToLower u1 ≠ ToLower u2 →
  let r := run [EvRegister u1 e1 t1 tPut1; EvRegister u2 e2 t2 tPut2]
               (NewRouteRegistry c) in
  ∃ l1 l2,
    l1 ≠ l2
    ∧ byUri r = <[ToLower u2 := l2]> {[ToLower u1 := l1]}
    ∧ pools r !! l1 = Some (Put (NewPool (DropletStaleThreshold c `quot` 4)) e1 tPut1)
    ∧ pools r !! l2 = Some (Put (NewPool (DropletStaleThreshold c `quot` 4)) e2 tPut2).
Proof.
  intros Hne r. subst r. simpl run.
  rewrite (Register_new (NewRouteRegistry c) u1) by apply lookup_empty.
  set (r1 := set_timeOfLastUpdate t1 _).
  assert (byUri r1 !! ToLower u2 = None) as Hfree.
  { simpl. by rewrite lookup_insert_ne, lookup_empty. }
  rewrite (Register_new r1 u2) by done.
  set (l1 := fresh (dom (pools (NewRouteRegistry c)))) in *.
  set (l2 := fresh (dom (pools r1))).
  assert (pools r1 !! l1
          = Some (Put (NewPool (DropletStaleThreshold c `quot` 4)) e1 tPut1))
    as H1.
  { simpl. by rewrite lookup_alter_eq, lookup_insert_eq. }
  assert (pools r1 !! l2 = None) as H2 by apply not_elem_of_dom, is_fresh.
  assert (l1 ≠ l2) as Hl by congruence.
  exists l1, l2. split_and!; [done | simpl; by rewrite insert_empty | |].
  - cbn [pools set_timeOfLastUpdate set_pools set_byUri].
    by rewrite lookup_alter_ne, lookup_insert_ne.
  - cbn [pools set_timeOfLastUpdate set_pools set_byUri].
    by rewrite lookup_alter_eq, lookup_insert_eq.
Qed.

(** C6. [NumEndpoints] is the number of distinct canonical addresses of the
    endpoints of the pools of the table: the set it builds holds exactly
    those addresses, and its size is never more than the sum of the sizes
    of the pools.  After registering, on a fresh registry, endpoints with
    one and the same address under two uris that are different keys,
    [NumEndpoints] is 1, [NumUris] is 2 and the pool sizes add up to 2. *)
Theorem NumEndpoints_counts_distinct_addresses :
  (∀ r : RouteRegistry,
     ∃ addrs : gset string,
       (∀ a, a ∈ addrs
             ↔ ∃ k pool p e, byUri r !! k = Some pool ∧ pools r !! pool = Some p
                             ∧ e ∈ Each p ∧ CanonicalAddr e = a)
       ∧ NumEndpoints r = size addrs
       ∧ (NumEndpoints r ≤ sum_pool_sizes r)%nat)
  ∧ (∀ c u1 u2 e1 e2 t1 tPut1 t2 tPut2,
       ToLower u1 ≠ ToLower u2 →
       CanonicalAddr e1 = CanonicalAddr e2 →
       let r := run [EvRegister u1 e1 t1 tPut1; EvRegister u2 e2 t2 tPut2]
                    (NewRouteRegistry c) in
       NumEndpoints r = 1%nat ∧ NumUris r = 2%nat ∧ sum_pool_sizes r = 2%nat).
Proof.
  split.
  - intros r. exists (collect_addrs r). split_and!.
    + apply collect_addrs_spec.
    + done.
    + unfold NumEndpoints, collect_addrs, sum_pool_sizes.
      etrans; [apply collect_table_size |]. by rewrite size_empty.
  - intros c u1 u2 e1 e2 t1 tPut1 t2 tPut2 Hne Haddr r.
    destruct (two_routes c u1 u2 e1 e2 t1 tPut1 t2 tPut2 Hne)
      as (l1 & l2 & Hl & Htable & Hp1 & Hp2).
    fold r in Htable, Hp1, Hp2.
    assert (({[ToLower u1 := l1]} : gmap Uri loc) !! ToLower u2 = None)
      as Hfree by by rewrite lookup_singleton_ne.
    split_and!.
    + unfold NumEndpoints.
      assert (collect_addrs r = {[CanonicalAddr e1]}) as ->;
        [| apply size_singleton].
      apply set_eq. intros a. rewrite collect_addrs_spec, elem_of_singleton.
      split.
      * intros (k & l & p & e & Hk & Hp & He & <-).
        rewrite Htable in Hk.
        apply lookup_insert_Some in Hk as [[_ <-] | [_ Hk]].
        -- rewrite Hp2 in Hp. injection Hp as <-.
           rewrite Each_Put_NewPool in He.
           apply list_elem_of_singleton in He as ->. done.
        -- apply lookup_singleton_Some in Hk as [_ <-].
           rewrite Hp1 in Hp. injection Hp as <-.
           rewrite Each_Put_NewPool in He.
           apply list_elem_of_singleton in He as ->. done.
      * intros ->. eexists (ToLower u2), l2, _, e2.
        rewrite Htable, lookup_insert_eq, Each_Put_NewPool.
        split_and!; [done | done | by left | done].
    + unfold NumUris. rewrite Htable.
      by rewrite map_size_insert_None, map_size_singleton.
    + unfold sum_pool_sizes. rewrite Htable.
      rewrite map_to_list_insert, map_to_list_singleton by done.
      unfold EachAt. simpl. rewrite Hp1, Hp2. simpl.
      by rewrite !Each_Put_NewPool.
Qed.

Lemma NumEndpoints_counts_distinct_addresses_witness :
  ToLower "foo.com" ≠ ToLower "bar.com"
  ∧ CanonicalAddr sample.e1 = CanonicalAddr sample.e1
  ∧ NumEndpoints sample.r_same_addr = 1%nat
  ∧ NumUris sample.r_same_addr = 2%nat
  ∧ sum_pool_sizes sample.r_same_addr = 2%nat.
Proof.
  split; [vm_compute; discriminate |]. split; [reflexivity |].
  apply (proj2 NumEndpoints_counts_distinct_addresses
           sample.cfg "foo.com" "bar.com" sample.e1 sample.e1 1 2 3 4).
  - vm_compute. discriminate.
  - reflexivity.
Defined.

(** ** The pruning cycle *)

(** C3 fails: two calls of [StartPruningCycle] on a registry with a positive
    interval leave two running tickers and two sweeper goroutines. *)
Lemma StartPruningCycle_twice_two_tickers :
  0 < pruneStaleDropletsInterval sample.r_fresh
  ∧ sample.r_started_twice
    = StartPruningCycle (StartPruningCycle sample.r_fresh)
  ∧ active_tickers sample.r_started_twice = 2%nat
  ∧ ¬ (active_tickers sample.r_started_twice ≤ 1)%nat
  ∧ tickers sample.r_started_twice
    = [mkTicker true false; mkTicker true false]
  ∧ sweepers sample.r_started_twice = [AtSelect; AtSelect].
Proof. vm_compute. split_and!; try done. lia. Qed.

(** C3, amended. Every call of [StartPruningCycle] on a registry with a
    positive interval makes one more running ticker, points the ticker
    field at it, and starts one more sweeper goroutine; the tickers made by
    earlier calls are left as they are, so a second call leaves the first
    ticker running.  With an interval that is not positive the call does
    nothing. *)
Theorem StartPruningCycle_adds_a_ticker (r : RouteRegistry) :
  (0 < pruneStaleDropletsInterval r →
     active_tickers (StartPruningCycle r) = S (active_tickers r)
     ∧ ticker (StartPruningCycle r) = Some (length (tickers r))
     ∧ tickers (StartPruningCycle r) = (tickers r ++ [mkTicker true false])%list
     ∧ sweepers (StartPruningCycle r) = (sweepers r ++ [AtSelect])%list
     ∧ active_tickers (StartPruningCycle (StartPruningCycle r))
       = S (S (active_tickers r)))
  ∧ ((pruneStaleDropletsInterval r ≤ 0)%Z → StartPruningCycle r = r)
  ∧ byUri (StartPruningCycle r) = byUri r
  ∧ pools (StartPruningCycle r) = pools r
  ∧ timeOfLastUpdate (StartPruningCycle r) = timeOfLastUpdate r.
Proof.
  unfold StartPruningCycle.
  split_and!; try (case_decide; done); intros Hint.
  - simpl. rewrite !decide_True by done. unfold active_tickers. simpl.
    rewrite !filter_app, !length_app. simpl.
    split_and!; [lia | done | done | done | lia].
  - by rewrite decide_False by lia.
Qed.

Lemma StartPruningCycle_adds_a_ticker_witness :
  0 < pruneStaleDropletsInterval sample.r_started
  ∧ active_tickers (StartPruningCycle sample.r_started)
    = S (active_tickers sample.r_started)
  ∧ ticker (StartPruningCycle sample.r_started)
    = Some (length (tickers sample.r_started))
  ∧ tickers (StartPruningCycle sample.r_started)
    = (tickers sample.r_started ++ [mkTicker true false])%list
  ∧ sweepers (StartPruningCycle sample.r_started)
    = (sweepers sample.r_started ++ [AtSelect])%list
  ∧ active_tickers (StartPruningCycle (StartPruningCycle sample.r_started))
    = S (S (active_tickers sample.r_started)).
Proof.
  split; [reflexivity |].
  apply (proj1 (StartPruningCycle_adds_a_ticker sample.r_started)).
  reflexivity.
Defined.

Lemma prune_route_runtime now r kl :
  tickers (prune_route now r kl) = tickers r
  ∧ ticker (prune_route now r kl) = ticker r
  ∧ sweepers (prune_route now r kl) = sweepers r
  ∧ debugLines (prune_route now r kl) = debugLines r.
Proof. unfold prune_route. by destruct (IsEmptyAt _ _). Qed.

Lemma pruneStaleDroplets_runtime r now :
  tickers (pruneStaleDroplets r now) = tickers r
  ∧ ticker (pruneStaleDroplets r now) = ticker r
  ∧ sweepers (pruneStaleDroplets r now) = sweepers r
  ∧ debugLines (pruneStaleDroplets r now) = debugLines r.
Proof.
  unfold pruneStaleDroplets. generalize (map_to_list (byUri r)) as rest.
  intros rest. revert r. induction rest as [| kl rest IH]; intros r; simpl;
    [done |].
  destruct (IH (prune_route now r kl)) as (-> & -> & -> & ->).
  apply prune_route_runtime.
Qed.

Lemma Register_runtime r uri e t tPut :
  tickers (Register r uri e t tPut) = tickers r
  ∧ ticker (Register r uri e t tPut) = ticker r.
Proof. unfold Register. by destruct (byUri r !! ToLower uri). Qed.

Lemma Unregister_runtime r uri e :
  tickers (Unregister r uri e) = tickers r
  ∧ ticker (Unregister r uri e) = ticker r.
Proof.
  unfold Unregister. destruct (byUri r !! ToLower uri); [| done].
  by destruct (IsEmptyAt _ _).
Qed.

Lemma ticker_stopped_frame i r r' :
  tickers r' = tickers r → ticker_stopped i r → ticker_stopped i r'.
Proof. unfold ticker_stopped. by intros ->. Qed.

(** A stopped ticker stays stopped, whatever happens next. *)
Lemma exec_ticker_stopped i ev r :
  ticker_stopped i r → ticker_stopped i (exec ev r).
Proof.
  intros Hs. pose proof Hs as [Hlen Hstop]. destruct ev; simpl.
  - apply (ticker_stopped_frame i r); [apply Register_runtime | done].
  - apply (ticker_stopped_frame i r); [apply Unregister_runtime | done].
  - done.
  - unfold StartPruningCycle. case_decide; [| done].
    split; simpl.
    + rewrite length_app. lia.
    + intros tk. rewrite lookup_app_l by done. apply Hstop.
  - unfold StopPruningCycle. destruct (ticker r) as [j |]; [| done].
    split; simpl.
    + by rewrite length_alter.
    + intros tk. destruct (decide (j = i)) as [-> | Hne].
      * rewrite list_lookup_alter_eq.
        destruct (tickers r !! i); simpl; [| done]. by intros [= <-].
      * rewrite list_lookup_alter_ne by done. apply Hstop.
  - apply (ticker_stopped_frame i r); [apply pruneStaleDroplets_runtime | done].
  - unfold fire. destruct (tickers r !! i0) as [tk0 |] eqn:Htk0; [| done].
    destruct (running tk0) eqn:Hrun; [| done].
    split; simpl.
    + by rewrite length_insert.
    + intros tk. destruct (decide (i0 = i)) as [-> | Hne].
      * rewrite (Hstop _ Htk0) in Hrun. done.
      * rewrite list_lookup_insert_ne by done. apply Hstop.
  - unfold select_ticker. destruct (sweepers r !! g) as [[] |]; try done.
    by destruct (ticker r).
  - unfold receive. destruct (sweepers r !! g) as [[| j |] |]; try done.
    destruct (tickers r !! j) as [tk0 |] eqn:Htk0; [| done].
    destruct (pending tk0); [| done].
    split; simpl.
    + by rewrite length_insert.
    + intros tk. destruct (decide (j = i)) as [-> | Hne].
      * rewrite list_lookup_insert_eq by done. intros [= <-]. simpl.
        by apply Hstop.
      * rewrite list_lookup_insert_ne by done. apply Hstop.
  - unfold sweep. destruct (sweepers r !! g) as [[] |]; try done.
    apply (ticker_stopped_frame i r); [| done]. simpl.
    by destruct (pruneStaleDroplets_runtime (set_debugLines S r) now) as [-> _].
Qed.

Lemma run_ticker_stopped i evs :
  ∀ r, ticker_stopped i r → ticker_stopped i (run evs r).
Proof.
  induction evs as [| ev evs IH]; intros r Hs; simpl; [done |].
  by apply IH, exec_ticker_stopped.
Qed.

Lemma ticker_valid_frame r r' :
  ticker r' = ticker r → length (tickers r') = length (tickers r) →
  ticker_valid r → ticker_valid r'.
Proof. unfold ticker_valid. by intros -> ->. Qed.

Lemma exec_ticker_valid ev r : ticker_valid r → ticker_valid (exec ev r).
Proof.
  intros Hv. destruct ev; simpl.
  - destruct (Register_runtime r uri endpoint t tPut) as [Ht Hp].
    apply (ticker_valid_frame r); [done | by rewrite Ht | done].
  - destruct (Unregister_runtime r uri endpoint) as [Ht Hp].
    apply (ticker_valid_frame r); [done | by rewrite Ht | done].
  - done.
  - unfold StartPruningCycle. case_decide; [| done].
    intros i. simpl. intros [= <-]. rewrite List.length_app. simpl. lia.
  - apply (ticker_valid_frame r); [| | done]; unfold StopPruningCycle;
      destruct (ticker r) eqn:Hj; simpl; by rewrite ?length_alter.
  - destruct (pruneStaleDroplets_runtime r now) as (Ht & Hp & _).
    apply (ticker_valid_frame r); [done | by rewrite Ht | done].
  - apply (ticker_valid_frame r); [| | done]; unfold fire;
      destruct (tickers r !! i) as [tk |]; try done;
      destruct (running tk); simpl; by rewrite ?length_insert.
  - apply (ticker_valid_frame r); [| | done]; unfold select_ticker;
      destruct (sweepers r !! g) as [[] |]; try done;
      by destruct (ticker r) eqn:Hj.
  - apply (ticker_valid_frame r); [| | done]; unfold receive;
      destruct (sweepers r !! g) as [[| j |] |]; try done;
      destruct (tickers r !! j) as [tk |]; try done;
      destruct (pending tk); simpl; by rewrite ?length_insert.
  - destruct (pruneStaleDroplets_runtime (set_debugLines S r) now)
      as (Ht & Hp & _).
    apply (ticker_valid_frame r); [| | done]; unfold sweep;
      destruct (sweepers r !! g) as [[] |]; try done; simpl;
      by rewrite ?Ht, ?Hp.
Qed.

Lemma run_ticker_valid evs : ∀ r, ticker_valid r → ticker_valid (run evs r).
Proof.
  induction evs as [| ev evs IH]; intros r Hv; simpl; [done |].
  by apply IH, exec_ticker_valid.
Qed.

Lemma exec_ticker_unchanged ev r :
  ev ≠ EvStartPruningCycle → ticker (exec ev r) = ticker r.
Proof.
  intros Hev. destruct ev; simpl; try done.
  - apply Register_runtime.
  - apply Unregister_runtime.
  - unfold StopPruningCycle. by destruct (ticker r) eqn:Hj.
  - apply pruneStaleDroplets_runtime.
  - unfold fire. destruct (tickers r !! i) as [tk |]; [| done].
    by destruct (running tk).
  - unfold select_ticker. destruct (sweepers r !! g) as [[] |]; try done.
    by destruct (ticker r) eqn:Hj.
  - unfold receive. destruct (sweepers r !! g) as [[| j |] |]; try done.
    destruct (tickers r !! j) as [tk |]; [| done]. by destruct (pending tk).
  - unfold sweep. destruct (sweepers r !! g) as [[] |]; try done. simpl.
    apply (pruneStaleDroplets_runtime (set_debugLines S r) now).
Qed.

Lemma never_started_ticker evs :
  ∀ r, never_started evs → ticker (run evs r) = ticker r.
Proof.
  induction evs as [| ev evs IH]; intros r Hns; simpl; [done |].
  apply Forall_cons in Hns as [Hev Hns].
  by rewrite IH, exec_ticker_unchanged.
Qed.

(** C4 fails in its second half: a sweeper goroutine that has received its
    tick before [StopPruningCycle] ran still runs its sweep after
    [StopPruningCycle] has returned; here the sweep logs its line and
    removes the only route, although no ticker is running any more. *)
Lemma sweep_runs_after_StopPruningCycle :
  active_tickers sample.r_stopped = 0%nat
  ∧ debugLines sample.r_stopped = 0%nat
  ∧ NumUris sample.r_stopped = 1%nat
  ∧ debugLines (exec (EvSweep 0 1000) sample.r_stopped) = 1%nat
  ∧ NumUris (exec (EvSweep 0 1000) sample.r_stopped) = 0%nat.
Proof. vm_compute. done. Qed.

(** C4, amended. [StopPruningCycle] does nothing when the pruning cycle was
    never started.  On a registry in use whose pruning cycle was started,
    it stops the ticker the registry refers to: that ticker is not running
    after the call and never runs again, so it sends no further tick.  It
    touches nothing else: the sweeper goroutines, the ticks already sent
    and the other tickers are as before (so a goroutine that has got its
    tick still sweeps). *)
Theorem StopPruningCycle_stops_the_ticker (c : Config) (evs : list Event) :
  let r := run evs (NewRouteRegistry c) in
  (never_started evs → StopPruningCycle r = r)
  ∧ (ticker r = None → StopPruningCycle r = r)
  ∧ (∀ i, ticker r = Some i →
       (∀ evs' tk, tickers (run evs' (StopPruningCycle r)) !! i = Some tk →
                   running tk = false)
       ∧ (∀ evs', fire i (run evs' (StopPruningCycle r))
                  = run evs' (StopPruningCycle r))
       ∧ (∀ j, j ≠ i → tickers (StopPruningCycle r) !! j = tickers r !! j)
       ∧ (∀ tk, tickers r !! i = Some tk →
                tickers (StopPruningCycle r) !! i
                = Some (mkTicker false (pending tk))))
  ∧ sweepers (StopPruningCycle r) = sweepers r
  ∧ debugLines (StopPruningCycle r) = debugLines r
  ∧ byUri (StopPruningCycle r) = byUri r
  ∧ pools (StopPruningCycle r) = pools r
  ∧ timeOfLastUpdate (StopPruningCycle r) = timeOfLastUpdate r.
Proof.
  intros r.
  assert (ticker r = None → StopPruningCycle r = r) as Hnil.
  { intros Hnone. unfold StopPruningCycle. by rewrite Hnone. }
  split_and!; try (unfold StopPruningCycle; by destruct (ticker r)).
  - intros Hns. apply Hnil. unfold r. by rewrite never_started_ticker.
  - intros i Hi.
    assert (i < length (tickers r))%nat as Hlen.
    { by apply (run_ticker_valid evs (NewRouteRegistry c)). }
    assert (ticker_stopped i (StopPruningCycle r)) as Hs.
    { unfold StopPruningCycle. rewrite Hi. split; simpl.
      - by rewrite length_alter.
      - intros tk. rewrite list_lookup_alter_eq.
        destruct (tickers r !! i); simpl; [| done]. by intros [= <-]. }
    split_and!.
    + intros evs' tk. by apply (run_ticker_stopped i evs' _ Hs).
    + intros evs'. destruct (run_ticker_stopped i evs' _ Hs) as [_ Hrun].
      unfold fire. destruct (tickers _ !! i) as [tk |]; [| done].
      by rewrite (Hrun tk).
    + intros j Hj. unfold StopPruningCycle. rewrite Hi. simpl.
      by rewrite list_lookup_alter_ne.
    + intros tk Htk. unfold StopPruningCycle. rewrite Hi. simpl.
      by rewrite list_lookup_alter_eq, Htk.
Qed.

Lemma StopPruningCycle_stops_the_ticker_witness :
  ticker (run sample.evs_ticking (NewRouteRegistry sample.cfg)) = Some 0%nat
  ∧ tickers (run [EvFire 0; EvStartPruningCycle; EvFire 0]
                 (StopPruningCycle
                    (run sample.evs_ticking (NewRouteRegistry sample.cfg))))
      !! 0%nat = Some (mkTicker false true)
  ∧ running (mkTicker false true) = false
  ∧ never_started []
  ∧ StopPruningCycle (NewRouteRegistry sample.cfg)
    = NewRouteRegistry sample.cfg.
Proof.
  split_and!; [reflexivity | reflexivity | | apply Forall_nil_2 |].
  - destruct (StopPruningCycle_stops_the_ticker sample.cfg sample.evs_ticking)
      as (_ & _ & Hi & _).
    apply (proj1 (Hi 0%nat eq_refl)
             [EvFire 0; EvStartPruningCycle; EvFire 0] (mkTicker false true)).
    reflexivity.
  - apply (proj1 (StopPruningCycle_stops_the_ticker sample.cfg [])).
    apply Forall_nil_2.
Defined.

(** * Further properties of the registry *)

(** ** Lookup *)

Lemma Lookup_loop_none_complete m :
  ∀ n u tr,
    Lookup_loop NextWildcard n m u = Some (None, tr) →
    ∀ k c, (1 ≤ k)%nat → wildcard_form NextWildcard k u = Some c →
           m !! c = None.
Proof.
  induction n as [| n IH]; intros u tr Hloop k c Hk Hc; simpl in Hloop;
    [done |].
  destruct k as [| k]; [lia |]. simpl in Hc.
  destruct (NextWildcard u) as [u' err]. destruct err; [done |].
  destruct (m !! u') as [l |] eqn:Hu'; [done |].
  destruct (Lookup_loop NextWildcard n m u') as [[pool tr'] |] eqn:Hrec;
    [| done].
  simpl in Hloop. injection Hloop as -> <-.
  destruct k as [| k].
  - simpl in Hc. by injection Hc as <-.
  - apply (IH _ _ Hrec (S k)); [lia | done].
Qed.

Lemma Lookup_None_inv r uri :
  Lookup r uri = None →
  ∀ k c, wildcard_form NextWildcard k (ToLower uri) = Some c →
         byUri r !! c = None.
Proof.
  unfold Lookup, LookupWith. intros Hres.
  destruct (byUri r !! ToLower uri) as [l |] eqn:Hexact; [done |].
  destruct (Lookup_loop_total (byUri r) (labels (ToLower uri)) (ToLower uri))
    as (pool & tr & Htr & _); [lia |].
  rewrite Htr in Hres. subst pool.
  intros [| k] c Hc.
  - simpl in Hc. by injection Hc as <-.
  - apply (Lookup_loop_none_complete _ _ _ _ Htr (S k)); [lia | done].
Qed.

Lemma Lookup_Some_inv r uri pool :
  Lookup r uri = Some pool →
  ∃ k c, wildcard_form NextWildcard k (ToLower uri) = Some c
         ∧ byUri r !! c = Some pool.
Proof.
  unfold Lookup, LookupWith.
  destruct (byUri r !! ToLower uri) as [l |] eqn:Hexact.
  - intros [= ->]. by exists 0%nat, (ToLower uri).
  - destruct (Lookup_loop NextWildcard _ _ _) as [[pool' tr] |] eqn:Hloop;
      [| done].
    intros ->.
    destruct (Lookup_loop_sound _ _ _ _ _ Hexact Hloop) as (k & c & ? & ? & _).
    by exists k, c.
Qed.

(** [Lookup] misses no route: it returns the nil pool exactly when neither
    the lowercased uri nor any wildcard form derived from it is a key of
    the table. *)
Theorem Lookup_nil_iff_no_candidate (r : RouteRegistry) (uri : Uri) :
  Lookup r uri = None ↔ ∀ c, candidate uri c → byUri r !! c = None.
Proof.
  split.
  - intros Hres c [k Hk]. by apply (Lookup_None_inv r uri Hres k).
  - intros Hnone. destruct (Lookup r uri) as [pool |] eqn:Hres; [| done].
    destruct (Lookup_Some_inv _ _ _ Hres) as (k & c & Hk & Hc).
    rewrite (Hnone c) in Hc; [done | by exists k].
Qed.

(** The pool that [Lookup] returns is the pool of a key that [Lookup]
    tries for the uri, and on a registry in use it is a pool object that is
    not empty. *)
Theorem Lookup_returns_a_live_pool
    (c : Config) (evs : list Event) (uri : Uri) (pool : loc) :
  Lookup (run evs (NewRouteRegistry c)) uri = Some pool →
  (∃ k, candidate uri k ∧ byUri (run evs (NewRouteRegistry c)) !! k = Some pool)
  ∧ ∃ p, pools (run evs (NewRouteRegistry c)) !! pool = Some p
         ∧ IsEmpty p = false.
Proof.
  intros Hres.
  destruct (Lookup_Some_inv _ _ _ Hres) as (k & key & Hk & Hkey).
  split; [exists key; split; [by exists k | done] |].
  destruct (run_inv evs (NewRouteRegistry c) (NewRouteRegistry_inv c))
    as [_ Hne].
  by apply (Hne key).
Qed.

Lemma Lookup_returns_a_live_pool_witness :
  Lookup (run sample.evs_mixed (NewRouteRegistry sample.cfg)) "x.B.com"
  = None
  ∧ Lookup sample.r_routes "a.b.example.com" = Some 1%positive
  ∧ ∃ p, pools (run [EvRegister "*.example.com" sample.e1 1 2]
                    (NewRouteRegistry sample.cfg)) !! 1%positive = Some p
         ∧ IsEmpty p = false.
Proof.
  split; [reflexivity |]. split; [reflexivity |].
  apply (Lookup_returns_a_live_pool sample.cfg
           [EvRegister "*.example.com" sample.e1 1 2] "a.b.example.com"
           1%positive).
  reflexivity.
Defined.

Lemma Register_other_keys r uri e t tPut k :
  k ≠ ToLower uri → byUri (Register r uri e t tPut) !! k = byUri r !! k.
Proof.
  intros Hk. unfold Register.
  destruct (byUri r !! ToLower uri); simpl; [done |].
  by rewrite lookup_insert_ne.
Qed.

Lemma Unregister_other_keys r uri e k :
  k ≠ ToLower uri → byUri (Unregister r uri e) !! k = byUri r !! k.
Proof.
  intros Hk. unfold Unregister.
  destruct (byUri r !! ToLower uri); [| done].
  destruct (IsEmptyAt _ _); simpl; [| done].
  by rewrite lookup_delete_ne.
Qed.

Lemma Lookup_loop_agree m m' :
  ∀ n u,
    (∀ k c, wildcard_form NextWildcard k u = Some c → m !! c = m' !! c) →
    Lookup_loop NextWildcard n m u = Lookup_loop NextWildcard n m' u.
Proof.
  induction n as [| n IH]; intros u Hagree; simpl; [done |].
  destruct (NextWildcard u) as [u' err] eqn:Hu.
  destruct err.
  - apply NextWildcard_exhausted_same in Hu as ->.
    by rewrite <- (Hagree 0%nat u).
  - rewrite <- (Hagree 1%nat u'); [| simpl; by rewrite Hu].
    destruct (m !! u'); [done |].
    rewrite (IH u'); [done |].
    intros k c Hc. apply (Hagree (S k)). simpl. by rewrite Hu.
Qed.

Lemma Lookup_agree r r' uri :
  (∀ c, candidate uri c → byUri r !! c = byUri r' !! c) →
  Lookup r uri = Lookup r' uri.
Proof.
  intros Hagree. unfold Lookup, LookupWith.
  rewrite <- (Hagree (ToLower uri)) by by exists 0%nat.
  destruct (byUri r !! ToLower uri); [done |].
  rewrite (Lookup_loop_agree (byUri r) (byUri r')); [done |].
  intros k c Hc. apply Hagree. by exists k.
Qed.

(** [Register] and [Unregister] of a uri change the result of [Lookup] only
    for the uris that have the lowercased uri among the keys [Lookup] tries
    for them. *)
Theorem Lookup_of_unrelated_uri_unchanged
    (r : RouteRegistry) (uri v : Uri) (e : Endpoint) (t tPut : Time) :
  ¬ candidate v (ToLower uri) →
  Lookup (Register r uri e t tPut) v = Lookup r v
  ∧ Lookup (Unregister r uri e) v = Lookup r v.
Proof.
  intros Hnot. split; apply Lookup_agree; intros c Hc.
  - apply Register_other_keys. by intros ->.
  - apply Unregister_other_keys. by intros ->.
Qed.

Lemma Lookup_of_unrelated_uri_unchanged_witness :
  ¬ candidate "bar.org" (ToLower "Foo.com")
  ∧ Lookup (Register sample.r_routes "Foo.com" sample.e1 5 6) "bar.org"
    = Lookup sample.r_routes "bar.org"
  ∧ Lookup (Unregister sample.r_routes "Foo.com" sample.e1) "bar.org"
    = Lookup sample.r_routes "bar.org".
Proof.
  assert (¬ candidate "bar.org" (ToLower "Foo.com")) as Hnot.
  { intros [k Hk]. destruct k as [| [| k]]; vm_compute in Hk; discriminate. }
  split; [exact Hnot |].
  apply (Lookup_of_unrelated_uri_unchanged sample.r_routes "Foo.com" "bar.org"
           sample.e1 5 6 Hnot).
Defined.

(** ** Register and Unregister *)

Lemma Lookup_byUri r r' uri : byUri r = byUri r' → Lookup r uri = Lookup r' uri.
Proof. intros H. unfold Lookup, LookupWith. by rewrite H. Qed.

Lemma Remove_Put_NewPool d e t : IsEmpty (Remove (Put (NewPool d) e t) e) = true.
Proof.
  apply bool_decide_eq_true_2. simpl.
  by rewrite delete_insert_eq, delete_empty.
Qed.

(** Registering an endpoint under a uri that is not a key and unregistering
    it again leaves the table as it was: the same keys with the same pool
    pointers, hence the same [NumUris] and the same [Lookup] results. *)
Theorem Register_then_Unregister_restores_table
    (r : RouteRegistry) (uri : Uri) (e : Endpoint) (t tPut : Time) :
  byUri r !! ToLower uri = None →
  byUri (Unregister (Register r uri e t tPut) uri e) = byUri r
  ∧ NumUris (Unregister (Register r uri e t tPut) uri e) = NumUris r
  ∧ ∀ v, Lookup (Unregister (Register r uri e t tPut) uri e) v = Lookup r v.
Proof.
  intros Hu.
  assert (byUri (Unregister (Register r uri e t tPut) uri e) = byUri r) as Heq.
  { destruct (Register_created r uri e t tPut Hu) as (_ & Hl & Hp).
    unfold Unregister. rewrite Hl.
    unfold IsEmptyAt. simpl pools. rewrite lookup_alter_eq, Hp. simpl.
    rewrite Remove_Put_NewPool. simpl.
    rewrite (Register_new r uri e t tPut Hu). simpl.
    by apply delete_insert_id. }
  split_and!; [done | unfold NumUris; by rewrite Heq |].
  intros v. by apply Lookup_byUri.
Qed.

Lemma Register_then_Unregister_restores_table_witness :
  byUri sample.r_routes !! ToLower "New.Example.com" = None
  ∧ byUri (Unregister (Register sample.r_routes "New.Example.com" sample.e1 5 6)
                      "new.example.COM" sample.e1)
    = byUri sample.r_routes.
Proof.
  split; [reflexivity |].
  apply (Register_then_Unregister_restores_table sample.r_routes
           "New.Example.com" sample.e1 5 6).
  reflexivity.
Defined.

Lemma Remove_absent p e :
  endpoints p !! CanonicalAddr e = None → Remove p e = p.
Proof.
  intros Ha. destruct p as [d m]. unfold Remove. simpl in *.
  by rewrite delete_id.
Qed.

Lemma set_pools_id r : set_pools (λ m, m) r = r.
Proof. by destruct r. Qed.

(** [Unregister] changes nothing when the lowercased uri is not a key, and,
    on a registry in use, when the pool of the uri has no endpoint with the
    canonical address of the endpoint. *)
Theorem Unregister_of_absent_is_noop
    (c : Config) (evs : list Event) (uri : Uri) (e : Endpoint) :
  (byUri (run evs (NewRouteRegistry c)) !! ToLower uri = None →
   Unregister (run evs (NewRouteRegistry c)) uri e
   = run evs (NewRouteRegistry c))
  ∧ (∀ pool p,
       byUri (run evs (NewRouteRegistry c)) !! ToLower uri = Some pool →
       pools (run evs (NewRouteRegistry c)) !! pool = Some p →
       endpoints p !! CanonicalAddr e = None →
       Unregister (run evs (NewRouteRegistry c)) uri e
       = run evs (NewRouteRegistry c)).
Proof.
  set (r := run evs (NewRouteRegistry c)).
  split.
  - intros Hu. unfold Unregister. by rewrite Hu.
  - intros l p Hu Hp Ha.
    destruct (run_inv evs (NewRouteRegistry c) (NewRouteRegistry_inv c))
      as [_ Hne].
    fold r in Hne. destruct (Hne _ _ Hu) as (p' & Hp' & Hempty).
    assert (p' = p) as -> by congruence.
    unfold Unregister. rewrite Hu.
    assert (alter (λ p, Remove p e) l (pools r) = pools r) as Halter.
    { apply alter_id. intros p' Hp''.
      assert (p' = p) as -> by congruence. by apply Remove_absent. }
    assert (set_pools (alter (λ p, Remove p e) l) r = r) as ->.
    { destruct r. unfold set_pools. simpl in *. by rewrite Halter. }
    unfold IsEmptyAt. rewrite Hp. simpl. by rewrite Hempty.
Qed.

Lemma Unregister_of_absent_is_noop_witness :
  byUri sample.r_routes !! ToLower "Foo.Example.com" = Some 2%positive
  ∧ CanonicalAddr sample.e1 ≠ CanonicalAddr sample.e2
  ∧ Unregister sample.r_routes "Foo.Example.com" sample.e1 = sample.r_routes
  ∧ Unregister sample.r_routes "nothing.here" sample.e1 = sample.r_routes.
Proof.
  split; [reflexivity |]. split; [vm_compute; discriminate |].
  destruct (Unregister_of_absent_is_noop sample.cfg
              [EvRegister "*.example.com" sample.e1 1 2;
               EvRegister "foo.example.com" sample.e2 3 4]
              "Foo.Example.com" sample.e1) as [_ Hpool].
  destruct (Unregister_of_absent_is_noop sample.cfg
              [EvRegister "*.example.com" sample.e1 1 2;
               EvRegister "foo.example.com" sample.e2 3 4]
              "nothing.here" sample.e1) as [Hkey _].
  split.
  - apply (Hpool 2%positive
             (Put (NewPool (100 `quot` 4)) sample.e2 4));
      reflexivity.
  - apply Hkey. reflexivity.
Defined.

(** How the calls change the number of routes: [Register] adds one route
    when the lowercased uri is not a key and none when it is; [Unregister]
    removes at most one; neither touches another key. *)
Theorem NumUris_after_Register_and_Unregister
    (r : RouteRegistry) (uri : Uri) (e : Endpoint) (t tPut : Time) :
  NumUris (Register r uri e t tPut)
  = match byUri r !! ToLower uri with
    | Some _ => NumUris r
    | None => S (NumUris r)
    end
  ∧ (NumUris (Unregister r uri e) ≤ NumUris r
     ∧ NumUris r ≤ S (NumUris (Unregister r uri e)))%nat
  ∧ (byUri r !! ToLower uri = None →
     NumUris (Unregister r uri e) = NumUris r)
  ∧ (∀ k, k ≠ ToLower uri →
       byUri (Register r uri e t tPut) !! k = byUri r !! k
       ∧ byUri (Unregister r uri e) !! k = byUri r !! k).
Proof.
  unfold NumUris. split_and!.
  - unfold Register. destruct (byUri r !! ToLower uri) eqn:Hu; simpl; [done |].
    by rewrite map_size_insert_None.
  - unfold Unregister. destruct (byUri r !! ToLower uri) eqn:Hu; [| done].
    destruct (IsEmptyAt _ _); simpl; [| done].
    rewrite map_size_delete, Hu. simpl. lia.
  - unfold Unregister. destruct (byUri r !! ToLower uri) eqn:Hu; [| lia].
    destruct (IsEmptyAt _ _); simpl; [| lia].
    rewrite map_size_delete, Hu. simpl.
    assert (size (byUri r) ≠ 0)%nat; [| lia].
    apply map_size_non_empty_iff. intros Hempty.
    by rewrite Hempty, lookup_empty in Hu.
  - intros Hu. unfold Unregister. by rewrite Hu.
  - intros k Hk. split;
      [by apply Register_other_keys | by apply Unregister_other_keys].
Qed.

(** ** Endpoints are filed under their address *)

Lemma pool_keyed_Put p e t : pool_keyed p → pool_keyed (Put p e t).
Proof.
  intros Hp a e' t'. simpl. rewrite lookup_insert_Some.
  intros [[<- [= <- <-]] | [_ Ha]]; [done | by apply (Hp a e' t')].
Qed.

Lemma pool_keyed_Remove p e : pool_keyed p → pool_keyed (Remove p e).
Proof.
  intros Hp a e' t'. simpl. rewrite lookup_delete_Some.
  intros [_ Ha]. by apply (Hp a e' t').
Qed.

Lemma pool_keyed_PruneEndpoints p th now :
  pool_keyed p → pool_keyed (PruneEndpoints p th now).
Proof.
  intros Hp a e' t'. simpl. rewrite map_lookup_filter_Some.
  intros [Ha _]. by apply (Hp a e' t').
Qed.

Lemma pool_keyed_NewPool d : pool_keyed (NewPool d).
Proof. intros a e t. simpl. by rewrite lookup_empty. Qed.

Lemma pools_keyed_alter f l r :
  (∀ p, pool_keyed p → pool_keyed (f p)) →
  pools_keyed r → pools_keyed (set_pools (alter f l) r).
Proof.
  intros Hf Hr l' p. simpl. rewrite lookup_alter_Some.
  intros [(-> & p0 & Hp0 & ->) | [_ Hp]]; [apply Hf |]; by eapply Hr.
Qed.

Lemma pools_keyed_frame r r' :
  pools r' = pools r → pools_keyed r → pools_keyed r'.
Proof. unfold pools_keyed. by intros ->. Qed.

Lemma Register_keyed r uri e t tPut :
  pools_keyed r → pools_keyed (Register r uri e t tPut).
Proof.
  intros Hr. unfold Register.
  destruct (byUri r !! ToLower uri); simpl.
  - apply (pools_keyed_frame (set_pools (alter (λ p, Put p e tPut) l) r));
      [done |].
    apply pools_keyed_alter; [intros p; apply pool_keyed_Put | done].
  - generalize (fresh (dom (pools r))) as lf. intros lf l p. simpl.
    rewrite lookup_alter_Some.
    assert (∀ l' p', <[lf := NewPool (dropletStaleThreshold r `quot` 4)]>
                       (pools r) !! l' = Some p' → pool_keyed p') as Hins.
    { intros l' p'. rewrite lookup_insert_Some.
      intros [[_ <-] | [_ Hp']]; [apply pool_keyed_NewPool | by eapply Hr]. }
    intros [(<- & p0 & Hp0 & ->) | [_ Hp]].
    + apply pool_keyed_Put. exact (Hins _ _ Hp0).
    + exact (Hins _ _ Hp).
Qed.

Lemma Unregister_keyed r uri e :
  pools_keyed r → pools_keyed (Unregister r uri e).
Proof.
  intros Hr. unfold Unregister.
  destruct (byUri r !! ToLower uri); [| done].
  assert (pools_keyed (set_pools (alter (λ p, Remove p e) l) r)) as Hr1.
  { apply pools_keyed_alter; [intros p; apply pool_keyed_Remove | done]. }
  by destruct (IsEmptyAt _ _).
Qed.

Lemma prune_route_keyed now r kl :
  pools_keyed r → pools_keyed (prune_route now r kl).
Proof.
  intros Hr. unfold prune_route.
  assert (pools_keyed
            (set_pools (alter (λ p, PruneEndpoints p (dropletStaleThreshold r)
                                      now) kl.2) r)) as Hr1.
  { apply pools_keyed_alter; [| done].
    intros p. apply pool_keyed_PruneEndpoints. }
  by destruct (IsEmptyAt _ _).
Qed.

Lemma pruneStaleDroplets_keyed r now :
  pools_keyed r → pools_keyed (pruneStaleDroplets r now).
Proof.
  unfold pruneStaleDroplets. generalize (map_to_list (byUri r)) as rest.
  intros rest. revert r. induction rest as [| kl rest IH]; intros r Hr; simpl;
    [done |].
  by apply IH, prune_route_keyed.
Qed.

Lemma exec_keyed ev r : pools_keyed r → pools_keyed (exec ev r).
Proof.
  intros Hr. destruct ev; simpl.
  - by apply Register_keyed.
  - by apply Unregister_keyed.
  - done.
  - unfold StartPruningCycle. by case_decide.
  - unfold StopPruningCycle. by destruct (ticker r).
  - by apply pruneStaleDroplets_keyed.
  - unfold fire. destruct (tickers r !! i) as [tk |]; [| done].
    by destruct (running tk).
  - unfold select_ticker. destruct (sweepers r !! g) as [[] |]; try done.
    by destruct (ticker r).
  - unfold receive. destruct (sweepers r !! g) as [[| j |] |]; try done.
    destruct (tickers r !! j) as [tk |]; [| done]. by destruct (pending tk).
  - unfold sweep. destruct (sweepers r !! g) as [[] |]; try done.
    apply (pools_keyed_frame (pruneStaleDroplets (set_debugLines S r) now));
      [done |].
    by apply pruneStaleDroplets_keyed.
Qed.

Lemma run_keyed evs : ∀ r, pools_keyed r → pools_keyed (run evs r).
Proof.
  induction evs as [| ev evs IH]; intros r Hr; simpl; [done |].
  by apply IH, exec_keyed.
Qed.

Lemma NewRouteRegistry_keyed c : pools_keyed (NewRouteRegistry c).
Proof. intros l p. simpl. by rewrite lookup_empty. Qed.

Lemma elem_of_Each_inv p e :
  e ∈ Each p → ∃ a t, endpoints p !! a = Some (e, t).
Proof.
  unfold Each. intros ([a [e' t]] & -> & Hin)%list_elem_of_fmap.
  apply elem_of_map_to_list in Hin. by exists a, t.
Qed.


(** After [Unregister] of an endpoint under a uri, on a registry in use,
    the pool of that uri, if the uri is still a key, holds no endpoint with
    the canonical address of the endpoint. *)
Theorem Unregister_removes_the_address
    (c : Config) (evs : list Event) (uri : Uri) (e : Endpoint)
    (pool : loc) (p : Pool) :
  byUri (Unregister (run evs (NewRouteRegistry c)) uri e) !! ToLower uri
  = Some pool →
  pools (Unregister (run evs (NewRouteRegistry c)) uri e) !! pool = Some p →
  endpoints p !! CanonicalAddr e = None
  ∧ ∀ e', e' ∈ Each p → CanonicalAddr e' ≠ CanonicalAddr e.
Proof.
  set (r := run evs (NewRouteRegistry c)).
  pose proof (run_keyed evs _ (NewRouteRegistry_keyed c)) as Hkeyed.
  fold r in Hkeyed.
  unfold Unregister. destruct (byUri r !! ToLower uri) as [l |] eqn:Hu;
    [| by rewrite Hu].
  destruct (IsEmptyAt _ _); simpl; [by rewrite lookup_delete_eq |].
  rewrite Hu. intros [= <-]. rewrite lookup_alter_eq.
  destruct (pools r !! l) as [p0 |] eqn:Hp0; [| done].
  simpl. intros [= <-]. split; [simpl; apply lookup_delete_eq |].
  intros e' (a & t & Ha)%elem_of_Each_inv. simpl in Ha.
  apply lookup_delete_Some in Ha as [Hne Ha].
  by rewrite (Hkeyed _ _ Hp0 _ _ _ Ha).
Qed.

Lemma Unregister_removes_the_address_witness :
  byUri (Unregister (run sample.evs_two_endpoints (NewRouteRegistry sample.cfg))
                    "c.COM" sample.e2) !! ToLower "c.COM" = Some 1%positive
  ∧ ∃ p, pools (Unregister (run sample.evs_two_endpoints
                                (NewRouteRegistry sample.cfg))
                           "c.COM" sample.e2) !! 1%positive = Some p
         ∧ endpoints p !! CanonicalAddr sample.e2 = None.
Proof.
  split; [reflexivity |].
  eexists. split; [reflexivity |].
  apply (Unregister_removes_the_address sample.cfg sample.evs_two_endpoints
           "c.COM" sample.e2 1%positive); reflexivity.
Defined.

(** ** Counting again *)

Lemma Each_Put_cases p e t e' :
  e' ∈ Each (Put p e t) → e' = e ∨ e' ∈ Each p.
Proof.
  intros (a & t' & Ha)%elem_of_Each_inv. simpl in Ha.
  apply lookup_insert_Some in Ha as [[_ [= <- _]] | [_ Ha]]; [by left |].
  right. by apply (elem_of_Each _ a e' t').
Qed.

Lemma Each_Put_keeps p e t e' :
  pool_keyed p → e' ∈ Each p →
  ∃ e'', e'' ∈ Each (Put p e t) ∧ CanonicalAddr e'' = CanonicalAddr e'.
Proof.
  intros Hp (a & t' & Ha)%elem_of_Each_inv.
  destruct (decide (CanonicalAddr e = a)) as [Heq | Hne].
  - exists e. split; [apply Each_Put |]. by rewrite (Hp _ _ _ Ha).
  - exists e'. split; [| done]. apply (elem_of_Each _ a e' t').
    simpl. by rewrite lookup_insert_ne.
Qed.

Lemma Register_other_pools r uri e t tPut l :
  byUri (Register r uri e t tPut) !! ToLower uri ≠ Some l →
  pools (Register r uri e t tPut) !! l = pools r !! l.
Proof.
  unfold Register. destruct (byUri r !! ToLower uri) as [l0 |] eqn:Hu; simpl.
  - rewrite Hu. intros Hl. rewrite lookup_alter_ne; [done | congruence].
  - rewrite lookup_insert_eq. intros Hl.
    rewrite lookup_alter_ne, lookup_insert_ne; [done | congruence..].
Qed.

(** The pool that the lowercased uri has after [Register], with the pool it
    had before, if any. *)
Lemma Register_pool r uri e t tPut :
  table_wf r →
  ∃ l p0,
    byUri (Register r uri e t tPut) !! ToLower uri = Some l
    ∧ pools (Register r uri e t tPut) !! l = Some (Put p0 e tPut)
    ∧ ((byUri r !! ToLower uri = Some l ∧ pools r !! l = Some p0)
       ∨ (byUri r !! ToLower uri = None ∧ Each p0 = []
          ∧ ∀ k, byUri r !! k ≠ Some l)).
Proof.
  intros [Hdom Hinj].
  destruct (byUri r !! ToLower uri) as [l |] eqn:Hu.
  - destruct (Hdom _ _ Hu) as [p0 Hp0].
    destruct (Register_existing r uri e t tPut l p0 Hu Hp0) as [Hl Hp].
    exists l, p0. split_and!; [done | done | by left].
  - destruct (Register_created r uri e t tPut Hu) as (Hfresh & Hl & Hp).
    eexists _, _. split_and!; [done | done |]. right.
    split_and!; [done | |].
    + unfold Each. simpl. by rewrite map_to_list_empty.
    + intros k Hk. destruct (Hdom _ _ Hk) as [p' Hp']. congruence.
Qed.

(** On a registry in use [Register] adds the canonical address of the
    endpoint, and nothing else, to the addresses that [NumEndpoints]
    counts: the count stays the same when the address is already counted
    and grows by one when it is not. *)
Theorem NumEndpoints_after_Register
    (c : Config) (evs : list Event) (uri : Uri) (e : Endpoint) (t tPut : Time) :
  collect_addrs (Register (run evs (NewRouteRegistry c)) uri e t tPut)
  = collect_addrs (run evs (NewRouteRegistry c)) ∪ {[CanonicalAddr e]}
  ∧ NumEndpoints (Register (run evs (NewRouteRegistry c)) uri e t tPut)
    = (if decide (CanonicalAddr e ∈ collect_addrs (run evs (NewRouteRegistry c)))
       then NumEndpoints (run evs (NewRouteRegistry c))
       else S (NumEndpoints (run evs (NewRouteRegistry c)))).
Proof.
  set (r := run evs (NewRouteRegistry c)).
  destruct (run_inv evs _ (NewRouteRegistry_inv c)) as [Hwf _].
  pose proof (run_keyed evs _ (NewRouteRegistry_keyed c)) as Hkeyed.
  fold r in Hwf, Hkeyed. pose proof Hwf as [Hdom Hinj].
  destruct (Register_pool r uri e t tPut Hwf) as (l & p0 & Hl & Hp & Hbefore).
  assert (collect_addrs (Register r uri e t tPut)
          = collect_addrs r ∪ {[CanonicalAddr e]}) as Heq.
  { apply set_eq. intros a.
    rewrite elem_of_union, elem_of_singleton, !collect_addrs_spec. split.
    - intros (k & l' & p & e' & Hk & Hp' & He' & <-).
      destruct (decide (k = ToLower uri)) as [-> | Hne].
      + assert (l' = l) as -> by congruence.
        assert (p = Put p0 e tPut) as -> by congruence.
        apply Each_Put_cases in He' as [-> | He']; [by right |].
        destruct Hbefore as [[Hu Hp0] | (_ & Hnil & _)].
        * left. by exists (ToLower uri), l, p0, e'.
        * rewrite Hnil in He'. by apply elem_of_nil in He'.
      + rewrite Register_other_keys in Hk by done.
        rewrite Register_other_pools in Hp'.
        * left. by exists k, l', p, e'.
        * rewrite Hl. intros [= ->].
          destruct Hbefore as [[Hu _] | (_ & _ & Hnew)].
          -- by destruct Hne; apply (Hinj k (ToLower uri) l').
          -- by apply (Hnew k).
    - intros [(k & l' & p & e' & Hk & Hp' & He' & <-) | ->].
      + destruct (decide (k = ToLower uri)) as [-> | Hne].
        * destruct Hbefore as [[Hu Hp0] | (Hu & _)]; [| congruence].
          assert (l' = l) as -> by congruence.
          assert (p = p0) as -> by congruence.
          destruct (Each_Put_keeps p0 e tPut e' (Hkeyed _ _ Hp0) He')
            as (e'' & He'' & Ha).
          by exists (ToLower uri), l, (Put p0 e tPut), e''.
        * exists k, l', p, e'.
          rewrite Register_other_keys by done.
          rewrite Register_other_pools; [done |].
          rewrite Hl. intros [= ->].
          destruct Hbefore as [[Hu _] | (_ & _ & Hnew)].
          -- by destruct Hne; apply (Hinj k (ToLower uri) l').
          -- by apply (Hnew k).
      + exists (ToLower uri), l, (Put p0 e tPut), e.
        split_and!; [done | done | apply Each_Put | done]. }
  split; [done |]. unfold NumEndpoints. rewrite Heq.
  case_decide as Hin.
  - f_equal. apply set_eq. intros a.
    rewrite elem_of_union, elem_of_singleton.
    split; [intros [Ha | ->]; done | by left].
  - rewrite size_union, size_singleton; [lia |].
    intros a Ha ->%elem_of_singleton. done.
Qed.

Lemma IsEmpty_false_elem p : IsEmpty p = false → ∃ e, e ∈ Each p.
Proof.
  intros He. apply bool_decide_eq_false in He.
  destruct (map_choose _ He) as (a & [e t] & Ha).
  exists e. by apply (elem_of_Each _ a e t).
Qed.

Lemma sum_list_with_ge_length {A} (f : A → nat) (l : list A) :
  (∀ x, x ∈ l → 1 ≤ f x)%nat → (length l ≤ sum_list_with f l)%nat.
Proof.
  induction l as [| x l IH]; intros Hf; simpl; [lia |].
  assert (1 ≤ f x)%nat by (apply Hf; left).
  assert (length l ≤ sum_list_with f l)%nat.
  { apply IH. intros y Hy. apply Hf. by right. }
  lia.
Qed.

(** On a registry in use every route has at least one endpoint: the table
    has no route exactly when [NumEndpoints] is zero, and [NumUris] is
    never more than the sum of the sizes of the pools. *)
Theorem NumUris_zero_iff_NumEndpoints_zero (c : Config) (evs : list Event) :
  (NumUris (run evs (NewRouteRegistry c)) = 0%nat
   ↔ NumEndpoints (run evs (NewRouteRegistry c)) = 0%nat)
  ∧ (NumUris (run evs (NewRouteRegistry c))
     ≤ sum_pool_sizes (run evs (NewRouteRegistry c)))%nat.
Proof.
  set (r := run evs (NewRouteRegistry c)).
  destruct (run_inv evs _ (NewRouteRegistry_inv c)) as [_ Hne].
  fold r in Hne. unfold NumUris, NumEndpoints. split; [split |].
  - intros Hz%map_size_empty_inv. apply size_empty_iff.
    intros a. split; [| by intros ?%elem_of_empty].
    intros (k & l & _ & _ & Hk & _)%collect_addrs_spec.
    by rewrite Hz, lookup_empty in Hk.
  - intros Hz%size_empty_inv. apply map_size_empty_iff, map_empty.
    intros k. destruct (byUri r !! k) as [l |] eqn:Hk; [| done].
    destruct (Hne _ _ Hk) as (p & Hp & Hempty).
    destruct (IsEmpty_false_elem _ Hempty) as [e He].
    assert (CanonicalAddr e ∈ collect_addrs r) as Hin.
    { apply collect_addrs_spec. by exists k, l, p, e. }
    apply Hz in Hin. by apply elem_of_empty in Hin.
  - unfold sum_pool_sizes. rewrite <- length_map_to_list.
    apply sum_list_with_ge_length. intros [k l] Hkl%elem_of_map_to_list.
    destruct (Hne _ _ Hkl) as (p & Hp & Hempty).
    destruct (IsEmpty_false_elem _ Hempty) as [e He].
    unfold EachAt. simpl. rewrite Hp. simpl.
    destruct (Each p); [by apply elem_of_nil in He | simpl; lia].
Qed.

(** ** The sweep *)

Lemma IsEmpty_PruneEndpoints p th now :
  IsEmpty (PruneEndpoints p th now) = false ↔ has_fresh_endpoint p th now.
Proof.
  unfold IsEmpty, has_fresh_endpoint. simpl. split.
  - intros He%bool_decide_eq_false.
    destruct (map_choose _ He) as (a & [e t] & Ha).
    apply map_lookup_filter_Some in Ha as [Ha Ht]. by exists a, e, t.
  - intros (a & e & t & Ha & Ht). apply bool_decide_eq_false_2.
    intros Hempty.
    assert (filter (λ kv : string * (Endpoint * Time), (now - th ≤ kv.2.2)%Z)
              (endpoints p) !! a = Some (e, t)) as Hin
      by by apply map_lookup_filter_Some.
    by rewrite Hempty, lookup_empty in Hin.
Qed.

Lemma prune_route_fields now s kl :
  dropletStaleThreshold (prune_route now s kl) = dropletStaleThreshold s
  ∧ pools (prune_route now s kl)
    = alter (λ p, PruneEndpoints p (dropletStaleThreshold s) now) kl.2 (pools s)
  ∧ byUri (prune_route now s kl)
    = (if from_option IsEmpty false
            ((λ p, PruneEndpoints p (dropletStaleThreshold s) now)
               <$> pools s !! kl.2)
       then delete kl.1 (byUri s) else byUri s).
Proof.
  unfold prune_route, IsEmptyAt. simpl pools. rewrite lookup_alter_eq.
  by destruct (from_option IsEmpty false _).
Qed.

Lemma prune_progress_init r now :
  prune_progress r now (map_to_list (byUri r)) r.
Proof.
  split_and!; try done.
  - intros k l. rewrite elem_of_map_to_list. tauto.
  - intros k l Hk Hnot. by destruct Hnot; apply elem_of_map_to_list.
Qed.

Lemma prune_progress_step r0 now kl rest s :
  table_wf r0 →
  NoDup (kl :: rest).*1 →
  (∀ k l, (k, l) ∈ kl :: rest → byUri r0 !! k = Some l) →
  prune_progress r0 now (kl :: rest) s →
  prune_progress r0 now rest (prune_route now s kl).
Proof.
  destruct kl as [k0 l0].
  intros [Hdom Hinj] Hnd Hin (Hth & Hby & Hrest & Hdone & Hother).
  apply NoDup_cons in Hnd as [Hk0 _]. simpl in Hk0.
  assert (byUri r0 !! k0 = Some l0) as H0 by (apply Hin; left).
  destruct (Hdom _ _ H0) as [p0 Hp0].
  assert (pools s !! l0 = Some p0) as Hs0.
  { rewrite (Hrest k0 l0); [done | left]. }
  assert (∀ k l, (k, l) ∈ rest → k ≠ k0) as Hne.
  { intros k l Hkl ->. apply Hk0. apply list_elem_of_fmap. by exists (k0, l). }
  assert (∀ k l, (k, l) ∈ rest → l ≠ l0) as Hnel.
  { intros k l Hkl ->. apply (Hne k l0 Hkl).
    apply (Hinj k k0 l0); [| done]. apply Hin. by right. }
  destruct (prune_route_fields now s (k0, l0)) as (Hth' & Hpools' & Hby').
  simpl in Hpools', Hby'. rewrite Hth in Hpools', Hby'.
  rewrite Hs0 in Hby'. simpl in Hby'.
  unfold prune_progress. rewrite Hth', Hpools', Hby'.
  split_and!.
  - done.
  - intros k l.
    destruct (IsEmpty (PruneEndpoints p0 (dropletStaleThreshold r0) now))
      eqn:He.
    + rewrite lookup_delete_Some, Hby. split.
      * intros (Hk & Hr0 & [Hkl | Hs]); (split; [done |]); [| by right].
        apply elem_of_cons in Hkl as [[= -> ->] | Hkl]; [done | by left].
      * intros (Hr0 & Hcase). split_and!; [| done |].
        -- intros <-. assert (l = l0) as -> by congruence.
           destruct Hcase as [Hkl | (p & Hp & Hfalse)].
           ++ by apply (Hne k0 l0 Hkl).
           ++ assert (p = p0) as -> by congruence. congruence.
        -- destruct Hcase as [Hkl | Hs]; [left; by right | by right].
    + rewrite Hby. split.
      * intros (Hr0 & [Hkl | Hs]); (split; [done |]); [| by right].
        apply elem_of_cons in Hkl as [[= -> ->] | Hkl]; [| by left].
        right. by exists p0.
      * intros (Hr0 & [Hkl | Hs]); (split; [done |]);
          [left; by right | by right].
  - intros k l Hkl. rewrite lookup_alter_ne by (symmetry; eauto).
    apply (Hrest k). by right.
  - intros k l Hr0 Hnot. destruct (decide (l = l0)) as [-> | Hl].
    + by rewrite lookup_alter_eq, Hs0, Hp0.
    + rewrite lookup_alter_ne by done. apply (Hdone k); [done |].
      intros [[= -> ->] | Hkl]%elem_of_cons; done.
  - intros l Hno. rewrite lookup_alter_ne; [by apply Hother |].
    intros <-. by apply (Hno k0).
Qed.

Lemma prune_progress_foldl r0 now rest :
  table_wf r0 →
  ∀ s, NoDup rest.*1 →
       (∀ k l, (k, l) ∈ rest → byUri r0 !! k = Some l) →
       prune_progress r0 now rest s →
       prune_progress r0 now [] (foldl (prune_route now) s rest).
Proof.
  intros Hwf. induction rest as [| kl rest IH]; intros s Hnd Hin Hs; simpl;
    [done |].
  apply IH.
  - by apply NoDup_cons in Hnd as [_ Hnd].
  - intros k l Hkl. apply Hin. by right.
  - by apply prune_progress_step.
Qed.

(** What a sweep does to a table whose pointers are in order: a route is
    kept exactly when its pool has an endpoint seen at [now - threshold] or
    later, and the pool of every route is pruned. *)
Lemma pruneStaleDroplets_char r now :
  table_wf r →
  (∀ k l, byUri (pruneStaleDroplets r now) !! k = Some l
          ↔ byUri r !! k = Some l
            ∧ ∃ p, pools r !! l = Some p
                   ∧ has_fresh_endpoint p (dropletStaleThreshold r) now)
  ∧ (∀ k l p, byUri r !! k = Some l → pools r !! l = Some p →
       pools (pruneStaleDroplets r now) !! l
       = Some (PruneEndpoints p (dropletStaleThreshold r) now))
  ∧ (∀ l, (∀ k, byUri r !! k ≠ Some l) →
       pools (pruneStaleDroplets r now) !! l = pools r !! l).
Proof.
  intros Hwf. unfold pruneStaleDroplets.
  destruct (prune_progress_foldl r now (map_to_list (byUri r)) Hwf r)
    as (_ & Hby & _ & Hdone & Hother).
  - apply NoDup_fst_map_to_list.
  - intros k l. by rewrite elem_of_map_to_list.
  - apply prune_progress_init.
  - split_and!.
    + intros k l. rewrite Hby. split.
      * intros (Hk & [Hnil | (p & Hp & He)]); [by apply elem_of_nil in Hnil |].
        split; [done |]. exists p. split; [done |].
        by apply IsEmpty_PruneEndpoints.
      * intros (Hk & p & Hp & Hf). split; [done |]. right. exists p.
        split; [done |]. by apply IsEmpty_PruneEndpoints.
    + intros k l p Hk Hp. rewrite (Hdone k l Hk); [by rewrite Hp |].
      by intros ?%elem_of_nil.
    + done.
Qed.


Lemma Register_dropletStaleThreshold r uri e t tPut :
  dropletStaleThreshold (Register r uri e t tPut) = dropletStaleThreshold r.
Proof. unfold Register. by destruct (byUri r !! ToLower uri). Qed.

(** An endpoint and the sweep, on a registry in use: after [Register] of
    an endpoint under a uri, a sweep whose clock reading is at most the
    staleness threshold past the reading taken by [Put] keeps the route,
    and [Lookup] of the uri returns a pool holding the endpoint; a sweep
    later than that removes the route if the uri was not a key before. *)
Theorem registered_endpoint_survives_until_stale
    (c : Config) (evs : list Event) (uri : Uri) (e : Endpoint)
    (t tPut now : Time) :
  let r := run evs (NewRouteRegistry c) in
  let r' := pruneStaleDroplets (Register r uri e t tPut) now in
  ((now - dropletStaleThreshold r ≤ tPut)%Z →
     ∃ pool p, Lookup r' uri = Some pool ∧ pools r' !! pool = Some p
               ∧ e ∈ Each p)
  ∧ ((tPut < now - dropletStaleThreshold r)%Z →
     byUri r !! ToLower uri = None →
     byUri r' !! ToLower uri = None).
Proof.
  intros r r'.
  destruct (run_inv evs _ (NewRouteRegistry_inv c)) as [Hwf Hne].
  fold r in Hwf, Hne.
  destruct (Register_inv r uri e t tPut Hwf Hne) as [Hwf' _].
  destruct (pruneStaleDroplets_char _ now Hwf') as (Hby & Hpools & _).
  rewrite Register_dropletStaleThreshold in Hby, Hpools.
  fold r' in Hby, Hpools.
  split.
  - intros Hfresh.
    destruct (Register_pool r uri e t tPut Hwf) as (l & p0 & Hl & Hp & _).
    exists l, (PruneEndpoints (Put p0 e tPut) (dropletStaleThreshold r) now).
    split_and!.
    + apply Lookup_exact, Hby. split; [done |].
      exists (Put p0 e tPut). split; [done |].
      exists (CanonicalAddr e), e, tPut. simpl.
      by rewrite lookup_insert_eq.
    + by apply (Hpools (ToLower uri)).
    + apply (elem_of_Each _ (CanonicalAddr e) e tPut). simpl.
      apply map_lookup_filter_Some. by rewrite lookup_insert_eq.
  - intros Hstale Hu.
    destruct (byUri r' !! ToLower uri) as [l |] eqn:Hl; [| done].
    apply Hby in Hl as (Hl & p & Hp & a & e0 & t0 & Ha & Ht0).
    destruct (Register_created r uri e t tPut Hu) as (_ & Hl' & Hp').
    assert (l = fresh (dom (pools r))) as -> by congruence.
    rewrite Hp' in Hp. injection Hp as <-. simpl in Ha.
    apply lookup_insert_Some in Ha as [[_ [= _ <-]] | [_ Ha]]; [lia |].
    by rewrite lookup_empty in Ha.
Qed.

Lemma registered_endpoint_survives_until_stale_witness :
  (100 - dropletStaleThreshold sample.r_routes ≤ 6)%Z
  ∧ (∃ pool p,
       Lookup (pruneStaleDroplets
                 (Register sample.r_routes "New.com" sample.e1 5 6) 100)
              "New.com" = Some pool
       ∧ pools (pruneStaleDroplets
                  (Register sample.r_routes "New.com" sample.e1 5 6) 100)
           !! pool = Some p
       ∧ sample.e1 ∈ Each p)
  ∧ (6 < 200 - dropletStaleThreshold sample.r_routes)%Z
  ∧ byUri sample.r_routes !! ToLower "New.com" = None
  ∧ byUri (pruneStaleDroplets
             (Register sample.r_routes "New.com" sample.e1 5 6) 200)
      !! ToLower "New.com" = None.
Proof.
  split; [vm_compute; discriminate |].
  split.
  { apply (proj1 (registered_endpoint_survives_until_stale sample.cfg
                    [EvRegister "*.example.com" sample.e1 1 2;
                     EvRegister "foo.example.com" sample.e2 3 4]
                    "New.com" sample.e1 5 6 100)).
    vm_compute. discriminate. }
  split; [reflexivity |]. split; [reflexivity |].
  apply (proj2 (registered_endpoint_survives_until_stale sample.cfg
                  [EvRegister "*.example.com" sample.e1 1 2;
                   EvRegister "foo.example.com" sample.e2 3 4]
                  "New.com" sample.e1 5 6 200)); reflexivity.
Defined.

(** ** The pruning cycle again *)

Lemma Register_frame r uri e t tPut :
  pruneStaleDropletsInterval (Register r uri e t tPut)
  = pruneStaleDropletsInterval r
  ∧ sweepers (Register r uri e t tPut) = sweepers r
  ∧ debugLines (Register r uri e t tPut) = debugLines r.
Proof. unfold Register. by destruct (byUri r !! ToLower uri). Qed.

Lemma Unregister_frame r uri e :
  pruneStaleDropletsInterval (Unregister r uri e)
  = pruneStaleDropletsInterval r
  ∧ sweepers (Unregister r uri e) = sweepers r
  ∧ debugLines (Unregister r uri e) = debugLines r.
Proof.
  unfold Unregister. destruct (byUri r !! ToLower uri); [| done].
  by destruct (IsEmptyAt _ _).
Qed.

Lemma pruneStaleDroplets_interval r now :
  pruneStaleDropletsInterval (pruneStaleDroplets r now)
  = pruneStaleDropletsInterval r.
Proof.
  unfold pruneStaleDroplets. generalize (map_to_list (byUri r)) as rest.
  intros rest. revert r. induction rest as [| kl rest IH]; intros r; simpl;
    [done |].
  rewrite IH. unfold prune_route. by destruct (IsEmptyAt _ _).
Qed.

Lemma exec_interval ev r :
  pruneStaleDropletsInterval (exec ev r) = pruneStaleDropletsInterval r.
Proof.
  destruct ev; simpl.
  - apply Register_frame.
  - apply Unregister_frame.
  - done.
  - unfold StartPruningCycle. by case_decide.
  - unfold StopPruningCycle. by destruct (ticker r).
  - apply pruneStaleDroplets_interval.
  - unfold fire. destruct (tickers r !! i) as [tk |]; [| done].
    by destruct (running tk).
  - unfold select_ticker. destruct (sweepers r !! g) as [[] |]; try done.
    by destruct (ticker r).
  - unfold receive. destruct (sweepers r !! g) as [[| j |] |]; try done.
    destruct (tickers r !! j) as [tk |]; [| done]. by destruct (pending tk).
  - unfold sweep. destruct (sweepers r !! g) as [[] |]; try done. simpl.
    by rewrite pruneStaleDroplets_interval.
Qed.

Lemma run_interval evs :
  ∀ r, pruneStaleDropletsInterval (run evs r) = pruneStaleDropletsInterval r.
Proof.
  induction evs as [| ev evs IH]; intros r; simpl; [done |].
  by rewrite IH, exec_interval.
Qed.

(** With an interval that is not positive nothing of the pruning cycle ever
    comes into being. *)
Lemma exec_idle ev r :
  (pruneStaleDropletsInterval r ≤ 0)%Z →
  tickers r = [] ∧ ticker r = None ∧ sweepers r = [] ∧ debugLines r = 0%nat →
  tickers (exec ev r) = [] ∧ ticker (exec ev r) = None
  ∧ sweepers (exec ev r) = [] ∧ debugLines (exec ev r) = 0%nat.
Proof.
  intros Hint (Hts & Ht & Hgs & Hd). destruct ev; simpl.
  - destruct (Register_runtime r uri endpoint t tPut) as [-> ->].
    by destruct (Register_frame r uri endpoint t tPut) as (_ & -> & ->).
  - destruct (Unregister_runtime r uri endpoint) as [-> ->].
    by destruct (Unregister_frame r uri endpoint) as (_ & -> & ->).
  - done.
  - unfold StartPruningCycle. by rewrite decide_False by lia.
  - unfold StopPruningCycle. by rewrite Ht.
  - by destruct (pruneStaleDroplets_runtime r now) as (-> & -> & -> & ->).
  - unfold fire. by rewrite Hts.
  - unfold select_ticker. by rewrite Hgs.
  - unfold receive. by rewrite Hgs.
  - unfold sweep. by rewrite Hgs.
Qed.

Lemma run_idle evs :
  ∀ r, (pruneStaleDropletsInterval r ≤ 0)%Z →
       tickers r = [] ∧ ticker r = None ∧ sweepers r = []
       ∧ debugLines r = 0%nat →
       tickers (run evs r) = [] ∧ ticker (run evs r) = None
       ∧ sweepers (run evs r) = [] ∧ debugLines (run evs r) = 0%nat.
Proof.
  induction evs as [| ev evs IH]; intros r Hint Hidle; simpl; [done |].
  apply IH; [by rewrite exec_interval | by apply exec_idle].
Qed.

(** A registry made with a pruning interval that is zero or negative never
    has a ticker or a sweeper goroutine, whatever is called on it: no sweep
    is ever run by a goroutine, and the table shrinks only through
    [Unregister] and direct calls of the sweep. *)
Theorem nonpositive_interval_disables_the_cycle
    (c : Config) (evs : list Event) :
  (PruneStaleDropletsInterval c ≤ 0)%Z →
  tickers (run evs (NewRouteRegistry c)) = []
  ∧ ticker (run evs (NewRouteRegistry c)) = None
  ∧ sweepers (run evs (NewRouteRegistry c)) = []
  ∧ debugLines (run evs (NewRouteRegistry c)) = 0%nat
  ∧ StartPruningCycle (run evs (NewRouteRegistry c))
    = run evs (NewRouteRegistry c)
  ∧ ∀ g now, sweep g now (run evs (NewRouteRegistry c))
             = run evs (NewRouteRegistry c).
Proof.
  intros Hint.
  destruct (run_idle evs (NewRouteRegistry c)) as (Hts & Ht & Hgs & Hd);
    [done | done |].
  split_and!; try done.
  - unfold StartPruningCycle. rewrite run_interval.
    by rewrite decide_False by (simpl; lia).
  - intros g now. unfold sweep. by rewrite Hgs.
Qed.

Lemma nonpositive_interval_disables_the_cycle_witness :
  (PruneStaleDropletsInterval sample.cfg_off ≤ 0)%Z
  ∧ sweepers (run [EvStartPruningCycle; EvRegister "a.com" sample.e1 1 2;
                   EvStartPruningCycle; EvFire 0; EvSelect 0; EvReceive 0;
                   EvSweep 0 1000]
                  (NewRouteRegistry sample.cfg_off)) = []
  ∧ debugLines (run [EvStartPruningCycle; EvRegister "a.com" sample.e1 1 2;
                     EvStartPruningCycle; EvFire 0; EvSelect 0; EvReceive 0;
                     EvSweep 0 1000]
                    (NewRouteRegistry sample.cfg_off)) = 0%nat.
Proof.
  split; [vm_compute; discriminate |].
  destruct (nonpositive_interval_disables_the_cycle sample.cfg_off
              [EvStartPruningCycle; EvRegister "a.com" sample.e1 1 2;
               EvStartPruningCycle; EvFire 0; EvSelect 0; EvReceive 0;
               EvSweep 0 1000])
    as (_ & _ & Hgs & Hd & _).
  - vm_compute. discriminate.
  - split; [exact Hgs | exact Hd].
Defined.

Lemma pruneStaleDroplets_dropletStaleThreshold r now :
  dropletStaleThreshold (pruneStaleDroplets r now) = dropletStaleThreshold r.
Proof.
  unfold pruneStaleDroplets. generalize (map_to_list (byUri r)) as rest.
  intros rest. revert r. induction rest as [| kl rest IH]; intros r; simpl;
    [done |].
  rewrite IH. apply prune_route_fields.
Qed.

Lemma exec_dropletStaleThreshold ev r :
  dropletStaleThreshold (exec ev r) = dropletStaleThreshold r.
Proof.
  destruct ev; simpl.
  - apply Register_dropletStaleThreshold.
  - unfold Unregister. destruct (byUri r !! ToLower uri); [| done].
    by destruct (IsEmptyAt _ _).
  - done.
  - unfold StartPruningCycle. by case_decide.
  - unfold StopPruningCycle. by destruct (ticker r).
  - apply pruneStaleDroplets_dropletStaleThreshold.
  - unfold fire. destruct (tickers r !! i) as [tk |]; [| done].
    by destruct (running tk).
  - unfold select_ticker. destruct (sweepers r !! g) as [[] |]; try done.
    by destruct (ticker r).
  - unfold receive. destruct (sweepers r !! g) as [[| j |] |]; try done.
    destruct (tickers r !! j) as [tk |]; [| done]. by destruct (pending tk).
  - unfold sweep. destruct (sweepers r !! g) as [[] |]; try done. simpl.
    by rewrite pruneStaleDroplets_dropletStaleThreshold.
Qed.

Lemma run_dropletStaleThreshold evs :
  ∀ r, dropletStaleThreshold (run evs r) = dropletStaleThreshold r.
Proof.
  induction evs as [| ev evs IH]; intros r; simpl; [done |].
  by rewrite IH, exec_dropletStaleThreshold.
Qed.

(** A registry configured by [SpecConfig] has the pruning cycle switched
    off and a staleness threshold of zero: whatever is called on it, it has
    no ticker and no sweeper goroutine, [StartPruningCycle] does nothing,
    and a pool made by [Register] gets the parameter zero. *)
Theorem SpecConfig_registry_has_no_pruning_cycle
    (natsPort statusPort proxyPort : Z) (evs : list Event) :
  let r := run evs (NewRouteRegistry
                      (test_util.registry_config
                         (test_util.SpecConfig natsPort statusPort proxyPort))) in
  tickers r = [] ∧ ticker r = None ∧ sweepers r = []
  ∧ debugLines r = 0%nat
  ∧ StartPruningCycle r = r
  ∧ dropletStaleThreshold r = 0
  ∧ ∀ uri e t tPut,
      byUri r !! ToLower uri = None →
      ∃ pool, byUri (Register r uri e t tPut) !! ToLower uri = Some pool
              ∧ pools (Register r uri e t tPut) !! pool
                = Some (Put (NewPool 0) e tPut).
Proof.
  intros r.
  destruct (run_idle evs (NewRouteRegistry
                            (test_util.registry_config
                               (test_util.SpecConfig natsPort statusPort
                                  proxyPort))))
    as (Hts & Ht & Hgs & Hd); [done | done |].
  assert (dropletStaleThreshold r = 0) as Hth
    by (unfold r; by rewrite run_dropletStaleThreshold).
  split_and!; try done.
  - unfold StartPruningCycle, r. rewrite run_interval.
    by rewrite decide_False by (simpl; lia).
  - intros uri e t tPut Hu.
    destruct (Register_created r uri e t tPut Hu) as (_ & Hl & Hp).
    eexists. split; [exact Hl |]. by rewrite Hp, Hth.
Qed.

Lemma exec_lengths ev r :
  length (sweepers (exec ev r))
  = (length (sweepers r)
     + if decide (0 < pruneStaleDropletsInterval r)%Z then starts [ev] else 0)%nat
  ∧ length (tickers (exec ev r))
    = (length (tickers r)
       + if decide (0 < pruneStaleDropletsInterval r)%Z then starts [ev] else 0)%nat.
Proof.
  assert (∀ n : nat,
            n = (n + if decide (0 < pruneStaleDropletsInterval r)%Z
                     then 0 else 0)%nat) as Hzero
    by (intros n; case_decide; lia).
  destruct ev; simpl.
  - destruct (Register_runtime r uri endpoint t tPut) as [-> _].
    destruct (Register_frame r uri endpoint t tPut) as (_ & -> & _).
    split; apply Hzero.
  - destruct (Unregister_runtime r uri endpoint) as [-> _].
    destruct (Unregister_frame r uri endpoint) as (_ & -> & _).
    split; apply Hzero.
  - split; apply Hzero.
  - unfold StartPruningCycle. case_decide; simpl; [| lia].
    by rewrite !List.length_app.
  - rewrite <- !Hzero. unfold StopPruningCycle.
    destruct (ticker r); simpl; by rewrite ?length_alter.
  - destruct (pruneStaleDroplets_runtime r now) as (-> & _ & -> & _).
    split; apply Hzero.
  - rewrite <- !Hzero. unfold fire.
    destruct (tickers r !! i) as [tk |]; [| done].
    destruct (running tk); simpl; by rewrite ?length_insert.
  - rewrite <- !Hzero. unfold select_ticker.
    destruct (sweepers r !! g) as [[] |]; try done.
    destruct (ticker r); simpl; by rewrite ?length_insert.
  - rewrite <- !Hzero. unfold receive.
    destruct (sweepers r !! g) as [[| j |] |]; try done.
    destruct (tickers r !! j) as [tk |]; [| done].
    destruct (pending tk); simpl; by rewrite ?length_insert.
  - rewrite <- !Hzero. unfold sweep.
    destruct (sweepers r !! g) as [[] |]; try done. simpl.
    destruct (pruneStaleDroplets_runtime (set_debugLines S r) now)
      as (-> & _ & -> & _).
    simpl. by rewrite length_insert.
Qed.

Lemma run_lengths evs :
  ∀ r,
    length (sweepers (run evs r))
    = (length (sweepers r)
       + if decide (0 < pruneStaleDropletsInterval r)%Z then starts evs else 0)%nat
    ∧ length (tickers (run evs r))
      = (length (tickers r)
         + if decide (0 < pruneStaleDropletsInterval r)%Z then starts evs else 0)%nat.
Proof.
  induction evs as [| ev evs IH]; intros r.
  - simpl. case_decide; lia.
  - change (run (ev :: evs) r) with (run evs (exec ev r)).
    destruct (IH (exec ev r)) as [-> ->].
    destruct (exec_lengths ev r) as [-> ->].
    rewrite exec_interval.
    destruct ev; simpl; case_decide; lia.
Qed.

Lemma run_app evs evs' :
  ∀ r, run (evs ++ evs') r = run evs' (run evs r).
Proof. induction evs as [| ev evs IH]; intros r; simpl; [done | apply IH]. Qed.

(** Every call of [StartPruningCycle] on a registry with a positive
    interval costs one ticker and one goroutine, and nothing ever gives
    them back: the loop of the goroutine has no exit and tickers are only
    stopped, so their numbers are the number of calls so far. *)
Theorem one_ticker_and_goroutine_per_start (c : Config) (evs : list Event) :
  length (sweepers (run evs (NewRouteRegistry c)))
  = (if decide (0 < PruneStaleDropletsInterval c)%Z then starts evs else 0%nat)
  ∧ length (tickers (run evs (NewRouteRegistry c)))
    = (if decide (0 < PruneStaleDropletsInterval c)%Z then starts evs else 0%nat)
  ∧ ∀ evs',
      (length (sweepers (run evs (NewRouteRegistry c)))
       ≤ length (sweepers (run (evs ++ evs') (NewRouteRegistry c))))%nat
      ∧ (length (tickers (run evs (NewRouteRegistry c)))
         ≤ length (tickers (run (evs ++ evs') (NewRouteRegistry c))))%nat.
Proof.
  destruct (run_lengths evs (NewRouteRegistry c)) as [Hg Ht].
  simpl in Hg, Ht. split_and!; [done | done |].
  intros evs'.
  rewrite run_app.
  destruct (run_lengths evs' (run evs (NewRouteRegistry c))) as [-> ->].
  split; lia.
Qed.

(** ** pauseStaleTracker *)

Lemma table_wf_NoDup_locs r :
  table_wf r → NoDup (map_to_list (byUri r)).*2.
Proof.
  intros [_ Hinj]. apply NoDup_fmap_2_strong; [| apply NoDup_map_to_list].
  intros [k1 l1] [k2 l2] H1%elem_of_map_to_list H2%elem_of_map_to_list Heq.
  simpl in Heq. subst l2. f_equal. by apply (Hinj k1 k2 l1).
Qed.

Lemma pauseStaleTracker_foldl (mu : Pool → Time → Pool) t rest :
  ∀ s,
    NoDup rest.*2 →
    let s' := foldl (λ (r : RouteRegistry) (kl : Uri * loc),
                       set_pools (alter (λ p, mu p t) kl.2) r) s rest in
    byUri s' = byUri s
    ∧ timeOfLastUpdate s' = timeOfLastUpdate s
    ∧ tickers s' = tickers s ∧ ticker s' = ticker s
    ∧ sweepers s' = sweepers s
    ∧ (∀ l, l ∈ rest.*2 → pools s' !! l = (λ p, mu p t) <$> pools s !! l)
    ∧ (∀ l, l ∉ rest.*2 → pools s' !! l = pools s !! l).
Proof.
  induction rest as [| [k0 l0] rest IH]; intros s Hnd; simpl.
  - split_and!; try done. intros l Hl. by apply elem_of_nil in Hl.
  - apply NoDup_cons in Hnd as [Hl0 Hnd].
    destruct (IH (set_pools (alter (λ p, mu p t) l0) s) Hnd)
      as (Hby & Htime & Hts & Ht & Hgs & Hin & Hout).
    simpl in Hby, Htime, Hts, Ht, Hgs, Hin, Hout.
    split_and!; try done.
    + intros l Hl. destruct (decide (l ∈ rest.*2)) as [Hrest | Hrest].
      * rewrite (Hin l Hrest). rewrite lookup_alter_ne; [done |].
        by intros ->.
      * apply elem_of_cons in Hl as [-> | Hl]; [| done].
        rewrite (Hout l0 Hrest). by rewrite lookup_alter_eq.
    + intros l Hl. apply not_elem_of_cons in Hl as [Hne Hl].
      rewrite (Hout l Hl). by rewrite lookup_alter_ne.
Qed.

(** [pauseStaleTracker] on a registry in use marks the pool of every route
    exactly once with the one clock reading, whatever [MarkUpdated] does to
    a pool, and touches nothing else: the keys, their pool pointers, the
    time of the last update and the tickers stay, so [NumUris] and every
    [Lookup] give what they gave before. *)
Theorem pauseStaleTracker_marks_every_pool_once
    (MarkUpdated : Pool → Time → Pool) (c : Config) (evs : list Event)
    (t : Time) :
  let r := run evs (NewRouteRegistry c) in
  let r' := pauseStaleTracker MarkUpdated r t in
  byUri r' = byUri r
  ∧ NumUris r' = NumUris r
  ∧ (∀ v, Lookup r' v = Lookup r v)
  ∧ TimeOfLastUpdate r' = TimeOfLastUpdate r
  ∧ tickers r' = tickers r ∧ sweepers r' = sweepers r
  ∧ (∀ k l p, byUri r !! k = Some l → pools r !! l = Some p →
       pools r' !! l = Some (MarkUpdated p t))
  ∧ (∀ l, (∀ k, byUri r !! k ≠ Some l) → pools r' !! l = pools r !! l).
Proof.
  intros r r'.
  destruct (run_inv evs _ (NewRouteRegistry_inv c)) as [Hwf _]. fold r in Hwf.
  destruct (pauseStaleTracker_foldl MarkUpdated t (map_to_list (byUri r)) r
              (table_wf_NoDup_locs r Hwf))
    as (Hby & Htime & Hts & _ & Hgs & Hin & Hout).
  fold (pauseStaleTracker MarkUpdated r t) in Hby, Htime, Hts, Hgs, Hin, Hout.
  fold r' in Hby, Htime, Hts, Hgs, Hin, Hout.
  split_and!; try done.
  - unfold NumUris. by rewrite Hby.
  - intros v. by apply Lookup_byUri.
  - intros k l p Hk Hp. rewrite Hin, Hp; [done |].
    apply list_elem_of_fmap. exists (k, l). split; [done |].
    by apply elem_of_map_to_list.
  - intros l Hl. apply Hout.
    intros ([k l'] & -> & Hkl%elem_of_map_to_list)%list_elem_of_fmap.
    by apply (Hl k).
Qed.

(** ** Start followed by Stop, and sweeping twice *)

(** [StopPruningCycle] right after [StartPruningCycle], on a registry with a
    positive interval, stops the ticker that was just made: as many tickers
    run as before the two calls, but the ticker object and the goroutine
    stay.  Stopping twice is the same as stopping once. *)
Theorem StartPruningCycle_then_StopPruningCycle (r : RouteRegistry) :
  (0 < pruneStaleDropletsInterval r →
     active_tickers (StopPruningCycle (StartPruningCycle r)) = active_tickers r
     ∧ tickers (StopPruningCycle (StartPruningCycle r))
       = (tickers r ++ [mkTicker false false])%list
     ∧ sweepers (StopPruningCycle (StartPruningCycle r))
       = (sweepers r ++ [AtSelect])%list)
  ∧ StopPruningCycle (StopPruningCycle r) = StopPruningCycle r.
Proof.
  split.
  - intros Hint. unfold StartPruningCycle. rewrite decide_True by done.
    unfold StopPruningCycle. simpl.
    assert (alter Stop (length (tickers r))
              (tickers r ++ [mkTicker true false])%list
            = (tickers r ++ [mkTicker false false])%list) as Halter.
    { rewrite <- (Nat.add_0_r (length (tickers r))) at 1.
      by rewrite alter_app_r. }
    unfold active_tickers. simpl. rewrite Halter.
    split_and!; [| done | done].
    rewrite filter_app, List.length_app. simpl. lia.
  - unfold StopPruningCycle. destruct (ticker r) as [i |] eqn:Hi; simpl;
      rewrite Hi; [| done].
    destruct r. unfold set_tickers. simpl. f_equal.
    rewrite list_alter_alter_eq. apply list_alter_ext; [| done].
    by intros [].
Qed.

Lemma StartPruningCycle_then_StopPruningCycle_witness :
  0 < pruneStaleDropletsInterval sample.r_started
  ∧ active_tickers (StopPruningCycle (StartPruningCycle sample.r_started))
    = active_tickers sample.r_started
  ∧ tickers (StopPruningCycle (StartPruningCycle sample.r_started))
    = (tickers sample.r_started ++ [mkTicker false false])%list
  ∧ sweepers (StopPruningCycle (StartPruningCycle sample.r_started))
    = (sweepers sample.r_started ++ [AtSelect])%list.
Proof.
  split; [reflexivity |].
  apply (proj1 (StartPruningCycle_then_StopPruningCycle sample.r_started)).
  reflexivity.
Defined.




(** [pauseStaleTracker] with a [MarkUpdated] that stamps every endpoint:
    the routes stay and the stale endpoint outlives the next sweep. *)
Example pauseStaleTracker_example :
  NumUris (pruneStaleDroplets sample.r_routes 1000) = 0%nat
  ∧ NumUris (pruneStaleDroplets
               (pauseStaleTracker sample.mark_all sample.r_routes 950) 1000)
    = 2%nat.
Proof. vm_compute. done. Qed.

(** ** Wildcard routes *)

Lemma Register_key_present r uri e t tPut :
  is_Some (byUri (Register r uri e t tPut) !! ToLower uri).
Proof.
  unfold Register. destruct (byUri r !! ToLower uri) eqn:Hu; simpl.
  - by rewrite Hu.
  - by rewrite lookup_insert_eq.
Qed.

(** After [Register] of a uri, [Lookup] finds a pool for every uri that has
    the lowercased registered uri among the keys [Lookup] tries for it: the
    uri itself in any case, and, when a wildcard route is registered, every
    host whose fallback chain passes through it. *)
Theorem registered_route_serves_its_candidates
    (r : RouteRegistry) (uri v : Uri) (e : Endpoint) (t tPut : Time) :
  candidate v (ToLower uri) →
  ∃ pool, Lookup (Register r uri e t tPut) v = Some pool.
Proof.
  intros [k Hk].
  destruct (Lookup (Register r uri e t tPut) v) as [pool |] eqn:Hres;
    [by exists pool |].
  pose proof (Lookup_None_inv _ _ Hres k _ Hk) as Hnone.
  destruct (Register_key_present r uri e t tPut) as [l Hl]. congruence.
Qed.

Lemma registered_route_serves_its_candidates_witness :
  candidate "a.b.Example.com" (ToLower "*.EXAMPLE.com")
  ∧ ∃ pool, Lookup (Register sample.r_fresh "*.EXAMPLE.com" sample.e1 1 2)
                   "a.b.Example.com" = Some pool.
Proof.
  assert (candidate "a.b.Example.com" (ToLower "*.EXAMPLE.com")) as Hc
    by (exists 2%nat; reflexivity).
  split; [exact Hc |].
  apply (registered_route_serves_its_candidates sample.r_fresh
           "*.EXAMPLE.com" "a.b.Example.com" sample.e1 1 2 Hc).
Defined.
